(** * Path aliases of [packages/dev-ts/src/tsconfig.js]

    A shallow embedding of [readConfigFile] and [extractAliases]: the
    recursive merge of a tsconfig [extends] chain and the compilation of
    the merged [paths] into alias rules. *)

From Stdlib Require Import String Ascii List Bool Arith NArith Lia Permutation.
Import ListNotations.
Open Scope string_scope.
Open Scope list_scope.

(** String concatenation, as in a template literal. *)
Infix "+++" := String.append (at level 60, right associativity).

(** ** JavaScript strings and arrays, as far as the program uses them *)

Module JS.

(** Truthiness of a string: only the empty string is falsy. *)
Definition truthy (s : string) : bool :=
match s with EmptyString => false | String _ _ => true end.

(** Truthiness of a possibly [undefined] string. *)
Definition truthy_opt (o : option string) : bool :=
match o with Some s => truthy s | None => false end.

(** The separator class of the regular expression [/[\\/]/]. *)
Definition is_sep (c : ascii) : bool :=
Ascii.eqb c "/"%char || Ascii.eqb c "\"%char.

(** [s.split(/[\\/]/)]: the result is never empty, [""] splits to [[""]]. *)
Fixpoint split_sep (s : string) : list string :=
match s with
| EmptyString => [EmptyString]
| String c r =>
    if is_sep c then EmptyString :: split_sep r
    else match split_sep r with
         | [] => [String c EmptyString]
         | h :: t => String c h :: t
         end
end.

(** [s.startsWith('.')] *)
Definition startsWith_dot (s : string) : bool :=
match s with String c _ => Ascii.eqb c "."%char | EmptyString => false end.

(** [a.at(-1)]: the last element, [undefined] on the empty array. *)
Fixpoint at_m1 {A : Type} (l : list A) : option A :=
match l with
| [] => None
| [x] => Some x
| _ :: t => at_m1 t
end.

(** [a.slice(0, -1)]: everything but the last element. *)
Definition slice_0_m1 {A : Type} (l : list A) : list A := removelast l.

(** [x === '*'] on a possibly [undefined] string. *)
Definition is_star (o : option string) : bool :=
match o with Some s => String.eqb s "*" | None => false end.

(** [a.filter((f) => f === '*').length] *)
Definition count_star (l : list string) : nat :=
length (List.filter (fun f => String.eqb f "*") l).

(** A value interpolated in a template literal. *)
Definition show (o : option string) : string :=
match o with Some s => s | None => "undefined" end.

End JS.

(** ** Plain objects used as string-keyed records

    An object is the list of its own properties in creation order; the keys
    of a JavaScript object are pairwise distinct ([obj_wf]). *)

Section Obj.
Context {V : Type}.

Definition obj := list (string * V).

Definition keys (o : obj) : list string := map fst o.

Definition obj_wf (o : obj) : Prop := NoDup (keys o).

Fixpoint obj_get (o : obj) (k : string) : option V :=
  match o with
  | [] => None
  | (k', v) :: r => if String.eqb k k' then Some v else obj_get r k
  end.

(** [o[k] = v]: an existing property keeps its place, a new one is created
    last. *)
Fixpoint obj_set (o : obj) (k : string) (v : V) : obj :=
  match o with
  | [] => [(k, v)]
  | (k', v') :: r =>
      if String.eqb k k' then (k', v) :: r else (k', v') :: obj_set r k v
  end.
End Obj.
Arguments obj V : clear implicits.

(** *** Property enumeration order

    [Object.entries] and the spread syntax list array-index keys first, in
    ascending numeric order, then the other keys in creation order. *)

Definition digit_of (c : ascii) : option N :=
  let n := N_of_ascii c in
  if ((48 <=? n) && (n <=? 57))%N then Some (n - 48)%N else None.

Fixpoint digits_value (s : string) (acc : N) : option N :=
  match s with
  | EmptyString => Some acc
  | String c r =>
      match digit_of c with
      | Some d => digits_value r (acc * 10 + d)%N
      | None => None
      end
  end.

(** A key is an array index when it is the canonical decimal form of an
    integer below [2^32 - 1]. *)
Definition array_index (k : string) : option N :=
  match k with
  | EmptyString => None
  | String "0"%char EmptyString => Some 0%N
  | String "0"%char _ => None
  | _ => match digits_value k 0 with
         | Some n => if (n <? 4294967295)%N then Some n else None
         | None => None
         end
  end.

Section Entries.
Context {V : Type}.

Definition is_index (e : string * V) : bool :=
  match array_index (fst e) with Some _ => true | None => false end.

Definition index_le (a b : string * V) : bool :=
  match array_index (fst a), array_index (fst b) with
  | Some m, Some n => (m <=? n)%N
  | _, _ => true
  end.

Fixpoint insert_sorted (e : string * V) (l : list (string * V)) :=
  match l with
  | [] => [e]
  | x :: r => if index_le e x then e :: l else x :: insert_sorted e r
  end.

Definition sort_index (l : list (string * V)) : list (string * V) :=
  fold_right insert_sorted [] l.

(** [Object.entries(o)] *)
Definition entries (o : obj V) : list (string * V) :=
  sort_index (List.filter is_index o)
    ++ List.filter (fun e => negb (is_index e)) o.

(** Copying the listed properties into [o], in order. *)
Definition assign (o : obj V) (l : list (string * V)) : obj V :=
  fold_left (fun o e => obj_set o (fst e) (snd e)) l o.

(** [{ ...a, ...b }]: a fresh object receives the properties of [a], then
    those of [b]. *)
Definition spread2 (a b : obj V) : obj V :=
  assign (assign [] (entries a)) (entries b).
End Entries.

(** ** Completions, the console and the call stack *)

Record JsError := { message : string }.

Inductive completion (A : Type) : Type :=
| Normal (a : A)
| Throw (e : JsError).
Arguments Normal {A} a.
Arguments Throw {A} e.

Inductive log_entry : Type :=
| Warn (msg : string)      (* console.warn *)
| Error (msg : string).    (* console.error *)

(** A computation writes to the console and completes normally or abruptly;
    [None] stands for a computation without completion, which no function
    of this module is ([readConfigFile_returns], [extractAliases_returns]). *)
Definition M (A : Type) : Type := option (list log_entry * completion A).

Definition ret {A} (a : A) : M A := Some ([], Normal a).
Definition throw {A} (e : JsError) : M A := Some ([], Throw e).
Definition console (l : log_entry) : M unit := Some ([l], Normal tt).
Definition lift {A} (c : completion A) : M A := Some ([], c).

(** The [RangeError] of the engine for a call the call stack has no room
    for. *)
Definition stack_overflow : JsError :=
  {| message := "Maximum call stack size exceeded" |}.

Definition bind {A B} (m : M A) (k : A -> M B) : M B :=
  match m with
  | None => None
  | Some (l, Throw e) => Some (l, Throw e)
  | Some (l, Normal a) =>
      match k a with
      | None => None
      | Some (l', c) => Some (l ++ l', c)
      end
  end.

(** [try { m } catch (error) { h error }] *)
Definition try_catch {A} (m : M A) (h : JsError -> M A) : M A :=
  match m with
  | Some (l, Throw e) =>
      match h e with
      | None => None
      | Some (l', c) => Some (l ++ l', c)
      end
  | r => r
  end.

Declare Scope js_scope.
Delimit Scope js_scope with js.
Notation "x <- m ;; k" := (bind m (fun x => k))
  (at level 61, m at next level, right associativity) : js_scope.
Notation "m ;;; k" := (bind m (fun _ => k))
  (at level 61, right associativity) : js_scope.

(** [a.map(f)] for a callback that may throw: the first throw ends the
    traversal. *)
Fixpoint map_completion {A B} (f : A -> completion B) (l : list A)
  : completion (list B) :=
  match l with
  | [] => Normal []
  | x :: r =>
      match f x with
      | Throw e => Throw e
      | Normal y =>
          match map_completion f r with
          | Throw e => Throw e
          | Normal ys => Normal (y :: ys)
          end
      end
  end.

(** ** The data of the program *)

(** A [URL] object, identified by its [href]. *)
Record URL := { href : string }.

(** [JsonConfig]: the part of a parsed file the program reads. *)
Record CompilerOptions := {
  baseUrl : option string;
  paths : option (obj (list string))
}.

Record JsonConfig := {
  compilerOptions : option CompilerOptions;
  extends : option string
}.

(** [PartialConfig] *)
Record PartialConfig := {
  cfg_paths : obj (list string);
  cfg_url : option URL
}.

(** [Alias]; [path] is [undefined] when the candidate list is empty. *)
Record Alias := {
  filter : list string;
  isWildcard : bool;
  path : option string;
  url : URL
}.

(** ** The collaborators of the module

    [node:path], [node:url], [node:fs], [json5] and the constants of
    [./common.js], which the module imports. [JSON5_parse] stands for the
    parse together with the destructuring of its result at the type
    [JsonConfig]; either may throw. [path.join] never returns the empty
    string (a zero-length result is ["."]). *)

Record Host := {
  CWD_PATH : string;
  CWD_URL : URL;
  MOD_PATH : string;
  path_join : list string -> string;
  path_dirname : string -> string;
  pathToFileURL : string -> URL;
  existsSync : string -> bool;
  readFileSync : string -> completion string;
  JSON5_parse : string -> completion JsonConfig;
  path_join_truthy : forall l, JS.truthy (path_join l) = true
}.

(** ** [readConfigFile] *)

Section Resolver.
Variable H : Host.
Local Open Scope js_scope.

(** The message of the [console.warn] for a missing file. *)
Definition missing_warning (configFile : string) (fromFile : option string)
  : string :=
  "No " +++ configFile
    +++ (if JS.truthy_opt fromFile
         then " (extended from " +++ JS.show fromFile +++ ")"
         else "")
    +++ " found, assuming defaults".

(** The message of the [console.error] of the [catch] block. *)
Definition parse_diagnostic (configFile : string) (error : JsError) : string :=
  "FATAL: Error parsing " +++ configFile +++ ":: " +++ message error.

(** [compilerOptions?.baseUrl], kept when truthy. *)
Definition own_baseUrl (cfg : JsonConfig) : option string :=
  match compilerOptions cfg with
  | Some co =>
      match baseUrl co with
      | Some b => if JS.truthy b then Some b else None
      | None => None
      end
  | None => None
  end.

(** The [url] a file sets by itself: its [baseUrl], relative to the
    directory of the file. *)
Definition resolve_baseUrl (configFile b : string) : URL :=
  pathToFileURL H (path_join H [path_dirname H configFile; b +++ "/"]).

Definition own_url (configFile : string) (cfg : JsonConfig) : option URL :=
  match own_baseUrl cfg with
  | Some b => Some (resolve_baseUrl configFile b)
  | None => None
  end.

(** [compilerOptions?.paths || {}] *)
Definition own_paths (cfg : JsonConfig) : obj (list string) :=
  match compilerOptions cfg with
  | Some co => match paths co with Some p => p | None => [] end
  | None => []
  end.

(** The [extends] of a file, when truthy. *)
Definition parentConfig (cfg : JsonConfig) : option string :=
  match extends cfg with
  | Some r => if JS.truthy r then Some r else None
  | None => None
  end.

Definition extRoot (currentPath parentConfig : string) : string :=
  if JS.startsWith_dot parentConfig then currentPath else MOD_PATH H.

Definition extSubs (parentConfig : string) : list string :=
  JS.split_sep parentConfig.

Definition extPath (currentPath parentConfig : string) : string :=
  path_join H (extRoot currentPath parentConfig
                 :: JS.slice_0_m1 (extSubs parentConfig)).

(** [extSubs.at(-1)] as the argument [tsconfig], with its default. *)
Definition extFile (parentConfig : string) : string :=
  match JS.at_m1 (extSubs parentConfig) with
  | Some f => f
  | None => "tsconfig.json"
  end.

(** [url || extConfig.url] *)
Definition url_or (u v : option URL) : option URL :=
  match u with Some _ => u | None => v end.

(** The merge of a file's own values over the result of its parent. *)
Definition merge_parent (configFile : string) (cfg : JsonConfig)
    (extConfig : PartialConfig) : PartialConfig :=
  {| cfg_paths := spread2 (cfg_paths extConfig) (own_paths cfg);
     cfg_url := url_or (own_url configFile cfg) (cfg_url extConfig) |}.

(** The [catch] block. *)
Definition rethrow (configFile : string) (error : JsError) : M PartialConfig :=
  console (Error (parse_diagnostic configFile error)) ;;; throw error.

(** [fuel] is the number of nested calls the call stack of the engine still
    has room for: the recursive call made with none left throws the
    engine's [RangeError], inside the [try] block of the caller like any
    other error of that call. *)
Fixpoint readConfigFile (fuel : nat) (currentPath tsconfig : string)
    (fromFile : option string) : M PartialConfig :=
  let configFile := path_join H [currentPath; tsconfig] in
  if negb (existsSync H configFile) then
    console (Warn (missing_warning configFile fromFile)) ;;;
    ret {| cfg_paths := []; cfg_url := None |}
  else
    try_catch
      (text <- lift (readFileSync H configFile) ;;
       cfg <- lift (JSON5_parse H text) ;;
       match parentConfig cfg with
       | Some parent =>
           extConfig <- match fuel with
                        | O => throw stack_overflow
                        | S fuel' =>
                            readConfigFile fuel' (extPath currentPath parent)
                              (extFile parent) (Some configFile)
                        end ;;
           ret (merge_parent configFile cfg extConfig)
       | None =>
           ret {| cfg_paths := own_paths cfg;
                  cfg_url := own_url configFile cfg |}
       end)
      (rethrow configFile).

(** What the [try] block does once the file is read and parsed. *)
Definition after_load (fuel : nat) (currentPath configFile : string)
    (cfg : JsonConfig) : M PartialConfig :=
  match parentConfig cfg with
  | Some parent =>
      extConfig <- match fuel with
                   | O => throw stack_overflow
                   | S fuel' =>
                       readConfigFile fuel' (extPath currentPath parent)
                         (extFile parent) (Some configFile)
                   end ;;
      ret (merge_parent configFile cfg extConfig)
  | None =>
      ret {| cfg_paths := own_paths cfg; cfg_url := own_url configFile cfg |}
  end.

(** ** [extractAliases] *)

Definition wildcard_message (key : string) (path : option string) : string :=
  "FATAL: Wildcards in tsconfig.json path entries are only supported in the last position. Invalid "
    +++ key +++ ": " +++ JS.show path +++ " mapping".

(** The condition under which the callback of [.map] throws. *)
Definition rejects (key : string) : bool :=
  let filter := JS.split_sep key in
  let isWildcard := JS.is_star (JS.at_m1 filter) in
  negb (Nat.eqb (JS.count_star filter) (if isWildcard then 1 else 0))
  && JS.truthy key.

(** The callback of [.map]: one entry [[key, [path]]] of the merged
    [paths]. *)
Definition alias_of_entry (url : URL) (entry : string * list string)
  : completion Alias :=
  let key := fst entry in
  let path := hd_error (snd entry) in
  let filter := JS.split_sep key in
  let isWildcard := JS.is_star (JS.at_m1 filter) in
  if rejects key
  then Throw {| message := wildcard_message key path |}
  else Normal {| filter := if isWildcard then JS.slice_0_m1 filter else filter;
                 isWildcard := isWildcard;
                 path := path;
                 url := url |}.

(** [readConfigFile ()] is called with its defaults: [CWD_PATH],
    ['tsconfig.json'] and no [fromFile]; [url] defaults to [CWD_URL].
    [fuel] is the room the call stack has when [readConfigFile] is entered. *)
Definition extractAliases (fuel : nat) : M (list Alias) :=
  cfg <- readConfigFile fuel (CWD_PATH H) "tsconfig.json" None ;;
  let url := match cfg_url cfg with Some u => u | None => CWD_URL H end in
  lift (map_completion (alias_of_entry url) (entries (cfg_paths cfg))).

(** The exported [tsAliases]. *)
Definition tsAliases (fuel : nat) : M (list Alias) := extractAliases fuel.
End Resolver.

(** ** A POSIX host over a finite disk

    [path.join] and [path.dirname] as [node:path] computes them on POSIX;
    the disk and the parser are finite tables. *)

Module Posix.

Definition is_slash (c : ascii) : bool := Ascii.eqb c "/"%char.

Fixpoint split_slash (s : string) : list string :=
  match s with
  | EmptyString => [EmptyString]
  | String c r =>
      if is_slash c then EmptyString :: split_slash r
      else match split_slash r with
           | [] => [String c EmptyString]
           | h :: t => String c h :: t
           end
  end.

(** One segment of [normalizeString]; [stack] holds the segments kept so
    far, the last one first. *)
Definition push_segment (allowAboveRoot : bool) (stack : list string)
    (seg : string) : list string :=
  if String.eqb seg "" || String.eqb seg "." then stack
  else if String.eqb seg ".." then
    match stack with
    | top :: rest =>
        if String.eqb top ".."
        then (if allowAboveRoot then ".." :: stack else stack)
        else rest
    | [] => if allowAboveRoot then [".."] else []
    end
  else seg :: stack.

Definition normalizeString (p : string) (allowAboveRoot : bool) : string :=
  String.concat "/"
    (rev (fold_left (push_segment allowAboveRoot) (split_slash p) [])).

Definition starts_with_slash (p : string) : bool :=
  match p with String c _ => is_slash c | EmptyString => false end.

Fixpoint ends_with_slash (p : string) : bool :=
  match p with
  | EmptyString => false
  | String c EmptyString => is_slash c
  | String _ r => ends_with_slash r
  end.

Definition normalize (p : string) : string :=
  if negb (JS.truthy p) then "."
  else
    let isAbsolute := starts_with_slash p in
    let trailingSeparator := ends_with_slash p in
    let q := normalizeString p (negb isAbsolute) in
    if negb (JS.truthy q) then
      (if isAbsolute then "/" else if trailingSeparator then "./" else ".")
    else
      let q' := if trailingSeparator then q +++ "/" else q in
      if isAbsolute then "/" +++ q' else q'.

Definition join (args : list string) : string :=
  match List.filter JS.truthy args with
  | [] => "."
  | parts => normalize (String.concat "/" parts)
  end.

Fixpoint drop_while (f : ascii -> bool) (l : list ascii) : list ascii :=
  match l with
  | c :: r => if f c then drop_while f r else l
  | [] => []
  end.

Definition dirname (p : string) : string :=
  match list_ascii_of_string p with
  | [] => "."
  | first :: rest =>
      let hasRoot := is_slash first in
      let back := drop_while is_slash (rev rest) in
      match drop_while (fun c => negb (is_slash c)) back with
      | [] => if hasRoot then "/" else "."
      | _ :: before =>
          match before with
          | [] => if hasRoot then "//"
                  else string_of_list_ascii [first]
          | _ => string_of_list_ascii (first :: rev before)
          end
      end
  end.

(** [pathToFileURL] of an absolute path that needs no escaping. *)
Definition file_url (p : string) : URL := {| href := "file://" +++ p |}.

Inductive node : Type :=
| Directory
| File (text : string).

Record disk := {
  nodes : obj node;                 (* what is at each absolute path *)
  documents : obj JsonConfig        (* the texts that parse, with their value *)
}.

Definition exists_on (d : disk) (p : string) : bool :=
  match obj_get (nodes d) p with Some _ => true | None => false end.

Definition read_from (d : disk) (p : string) : completion string :=
  match obj_get (nodes d) p with
  | Some (File text) => Normal text
  | Some Directory =>
      Throw {| message := "EISDIR: illegal operation on a directory, read" |}
  | None =>
      Throw {| message := "ENOENT: no such file or directory, open '" +++ p +++ "'" |}
  end.

Definition parse_with (d : disk) (text : string) : completion JsonConfig :=
  match obj_get (documents d) text with
  | Some cfg => Normal cfg
  | None => Throw {| message := "JSON5: invalid end of input at 1:2" |}
  end.

Lemma join_truthy (l : list string) : JS.truthy (join l) = true.
Proof.
  unfold join. destruct (List.filter JS.truthy l) as [|a r]; [reflexivity|].
  unfold normalize.
  destruct (JS.truthy (String.concat "/" (a :: r))); simpl; [|reflexivity].
  set (q := normalizeString _ _).
  destruct q as [|c q]; simpl.
  - destruct (starts_with_slash _); [reflexivity|].
    destruct (ends_with_slash _); reflexivity.
  - destruct (starts_with_slash _); [reflexivity|].
    destruct (ends_with_slash _); reflexivity.
Qed.

Definition host (cwd modroot : string) (d : disk) : Host :=
  {| CWD_PATH := cwd;
     CWD_URL := file_url (cwd +++ "/");
     MOD_PATH := modroot;
     path_join := join;
     path_dirname := dirname;
     pathToFileURL := file_url;
     existsSync := exists_on d;
     readFileSync := read_from d;
     JSON5_parse := parse_with d;
     path_join_truthy := join_truthy |}.

End Posix.

(** ** The extends chain of a starting point *)

Section Chain.
Variable H : Host.

(** Reading and parsing one file, as the [try] block starts. *)
Definition load (configFile : string) : completion JsonConfig :=
  match readFileSync H configFile with
  | Throw e => Throw e
  | Normal text => JSON5_parse H text
  end.

(** The existing files [readConfigFile] reaches with room for [fuel] nested
    calls, child first, each with what loading it gives; the walk stops at
    a file that is missing, fails to load or has no truthy [extends], and
    where the call stack is full. *)
Fixpoint chain (fuel : nat) (currentPath tsconfig : string)
  : list (string * completion JsonConfig) :=
  let configFile := path_join H [currentPath; tsconfig] in
  if negb (existsSync H configFile) then []
  else
    (configFile, load configFile)
      :: match load configFile with
         | Normal cfg =>
             match parentConfig cfg, fuel with
             | Some parent, S fuel' =>
                 chain fuel' (extPath H currentPath parent) (extFile parent)
             | _, _ => []
             end
         | Throw _ => []
         end.

(** The resolved [baseUrl] of the nearest file of a chain that defines
    one, for a given reading [defines] of "defines a baseUrl". *)
Fixpoint nearest_baseUrl (defines : JsonConfig -> option string)
    (c : list (string * completion JsonConfig)) : option URL :=
  match c with
  | [] => None
  | (configFile, Normal cfg) :: r =>
      match defines cfg with
      | Some b => Some (resolve_baseUrl H configFile b)
      | None => nearest_baseUrl defines r
      end
  | (_, Throw _) :: r => nearest_baseUrl defines r
  end.

(** The file the resolution of [currentPath]/[tsconfig] recurses into. *)
Definition next_hop (currentPath tsconfig : string) : option (string * string) :=
  let configFile := path_join H [currentPath; tsconfig] in
  if negb (existsSync H configFile) then None
  else match load configFile with
       | Normal cfg =>
           match parentConfig cfg with
           | Some parent => Some (extPath H currentPath parent, extFile parent)
           | None => None
           end
       | Throw _ => None
       end.

(** The chain from a starting point ends within [n] hops. *)
Fixpoint chain_within (n : nat) (currentPath tsconfig : string) : bool :=
  match next_hop currentPath tsconfig with
  | None => true
  | Some (p, f) =>
      match n with
      | O => false
      | S n' => chain_within n' p f
      end
  end.
End Chain.

(** A file defines a [baseUrl] when the field is present, whatever its
    value. *)
Definition declared_baseUrl (cfg : JsonConfig) : option string :=
  match compilerOptions cfg with
  | Some co => baseUrl co
  | None => None
  end.

(** ** The wording of the wildcard rule *)

(** The number of segments equal to the wildcard marker. *)
Definition stars (segs : list string) : nat := count_occ string_dec segs "*".

(** A wildcard marker in a position other than the last. *)
Definition star_not_last (segs : list string) : Prop :=
  exists i, S i < length segs /\ nth_error segs i = Some "*".

(** More than one wildcard marker, or one anywhere but in the last segment. *)
Definition invalid_key (key : string) : Prop :=
  1 < stars (JS.split_sep key) \/ star_not_last (JS.split_sep key).

(** ** Sample disks *)

Module Sample.
Import Posix.

Definition project_text : string :=
  "{ extends: './base/tsconfig.base.json', compilerOptions: { paths: { '@app/*': ['./src/*', './gen/*'], '@ui': ['./ui/index.ts'] } } }".
Definition project_cfg : JsonConfig :=
  {| extends := Some "./base/tsconfig.base.json";
     compilerOptions :=
       Some {| baseUrl := None;
               paths := Some [("@app/*", ["./src/*"; "./gen/*"]);
                              ("@ui", ["./ui/index.ts"])] |} |}.

Definition base_text : string :=
  "{ compilerOptions: { baseUrl: 'lib', paths: { '@app/*': ['./old/*'], '@lib': ['./index.ts'] } } }".
Definition base_cfg : JsonConfig :=
  {| extends := None;
     compilerOptions :=
       Some {| baseUrl := Some "lib";
               paths := Some [("@app/*", ["./old/*"]);
                              ("@lib", ["./index.ts"])] |} |}.

(** A project that extends a base configuration next to it. *)
Definition two_level : disk :=
  {| nodes := [("/p", Directory);
               ("/p/tsconfig.json", File project_text);
               ("/p/base", Directory);
               ("/p/base/tsconfig.base.json", File base_text);
               ("/m", Directory)];
     documents := [(project_text, project_cfg); (base_text, base_cfg)] |}.

Definition empty_baseUrl_text : string :=
  "{ extends: './base/tsconfig.base.json', compilerOptions: { baseUrl: '' } }".
Definition empty_baseUrl_cfg : JsonConfig :=
  {| extends := Some "./base/tsconfig.base.json";
     compilerOptions := Some {| baseUrl := Some ""; paths := None |} |}.

(** The same, with the project setting [baseUrl] to the empty string. *)
Definition empty_baseUrl : disk :=
  {| nodes := [("/p", Directory);
               ("/p/tsconfig.json", File empty_baseUrl_text);
               ("/p/base", Directory);
               ("/p/base/tsconfig.base.json", File base_text);
               ("/m", Directory)];
     documents := [(empty_baseUrl_text, empty_baseUrl_cfg);
                   (base_text, base_cfg)] |}.

Definition empty_extends_text : string :=
  "{ extends: '', compilerOptions: { paths: { '@x': ['./y'] } } }".
Definition empty_extends_cfg : JsonConfig :=
  {| extends := Some "";
     compilerOptions :=
       Some {| baseUrl := None; paths := Some [("@x", ["./y"])] |} |}.

(** A project whose [extends] is the empty string. *)
Definition empty_extends : disk :=
  {| nodes := [("/p", Directory);
               ("/p/tsconfig.json", File empty_extends_text);
               ("/m", Directory)];
     documents := [(empty_extends_text, empty_extends_cfg)] |}.

Definition self_text : string := "{ extends: './tsconfig.json' }".
Definition self_cfg : JsonConfig :=
  {| extends := Some "./tsconfig.json"; compilerOptions := None |}.

(** A project whose configuration extends itself. *)
Definition self_extending : disk :=
  {| nodes := [("/p", Directory); ("/p/tsconfig.json", File self_text);
               ("/m", Directory)];
     documents := [(self_text, self_cfg)] |}.

Definition missing_parent_text : string := "{ extends: '@tsconfig/strictest/tsconfig.json' }".
Definition missing_parent_cfg : JsonConfig :=
  {| extends := Some "@tsconfig/strictest/tsconfig.json";
     compilerOptions := None |}.

(** A project that extends a package configuration that is not installed. *)
Definition missing_parent : disk :=
  {| nodes := [("/p", Directory);
               ("/p/tsconfig.json", File missing_parent_text);
               ("/m", Directory)];
     documents := [(missing_parent_text, missing_parent_cfg)] |}.

Definition broken_text : string := "{".

(** A project whose base configuration is cut short. *)
Definition broken_base : disk :=
  {| nodes := [("/p", Directory);
               ("/p/tsconfig.json", File project_text);
               ("/p/base", Directory);
               ("/p/base/tsconfig.base.json", File broken_text);
               ("/m", Directory)];
     documents := [(project_text, project_cfg)] |}.

(** A working directory without a [tsconfig.json]. *)
Definition bare : disk :=
  {| nodes := [("/p", Directory); ("/m", Directory)]; documents := [] |}.

Definition on (d : disk) : Host := host "/p" "/m" d.
End Sample.

(** ** Keys, segments and chains, for the statements below *)

(** No character of [s] is a separator of [/[\\/]/]. *)
Fixpoint sep_free (s : string) : bool :=
  match s with
  | EmptyString => true
  | String c r => negb (JS.is_sep c) && sep_free r
  end.

(** [s] with every separator written as a slash. *)
Fixpoint slashes (s : string) : string :=
  match s with
  | EmptyString => EmptyString
  | String c r => String (if JS.is_sep c then "/"%char else c) (slashes r)
  end.

(** The segments a rule stands for: its filter, and the marker again when
    the rule is a wildcard rule. *)
Definition key_segments (a : Alias) : list string :=
  filter a ++ (if isWildcard a then ["*"] else []).

(** [k] is among the keys [ks]. *)
Definition has_key (ks : list string) (k : string) : bool :=
  existsb (String.eqb k) ks.

(** No key of the object is an array index. *)
Definition no_index_keys {V : Type} (o : obj V) : Prop :=
  forall e, In e o -> is_index e = false.

(** The targets of [key] in the nearest file of a chain that maps it. *)
Fixpoint nearest_targets (key : string)
    (c : list (string * completion JsonConfig)) : option (list string) :=
  match c with
  | [] => None
  | (_, Normal cfg) :: r =>
      match obj_get (own_paths cfg) key with
      | Some targets => Some targets
      | None => nearest_targets key r
      end
  | (_, Throw _) :: r => nearest_targets key r
  end.

(** The diagnostic of each file of a list, for one error. *)
Definition diagnostics (e : JsError) (files : list string) : list log_entry :=
  map (fun configFile => Error (parse_diagnostic configFile e)) files.

(** ** A project under [node_modules]

    The project extends [packages/dev/config/tsconfig.json] as installed,
    which extends [@tsconfig/strictest]. *)

Module Installed.
Import Posix.

(** What the program reads of [packages/dev/config/tsconfig.json]: its
    [extends], and [compilerOptions] without [baseUrl] and [paths]. *)
Definition dev_config : JsonConfig :=
  {| extends := Some "@tsconfig/strictest/tsconfig.json";
     compilerOptions := Some {| baseUrl := None; paths := None |} |}.

(** The document, written with single quotes and without its comments. *)
Definition dev_config_text : string :=
  "{ extends: '@tsconfig/strictest/tsconfig.json', compilerOptions: { module: 'nodenext', moduleResolution: 'nodenext', target: 'es2021', declaration: true, emitDeclarationOnly: true, jsx: 'preserve', verbatimModuleSyntax: true, exactOptionalPropertyTypes: false, noUncheckedIndexedAccess: false, } }".

Definition strictest_text : string :=
  "{ compilerOptions: { strict: true } }".
Definition strictest_cfg : JsonConfig :=
  {| extends := None;
     compilerOptions := Some {| baseUrl := None; paths := None |} |}.

Definition project_text : string :=
  "{ extends: '@polkadot/dev/config/tsconfig.json', compilerOptions: { baseUrl: '.', paths: { '@polkadot/api': ['packages/api/src'], '@polkadot/api/*': ['packages/api/src/*'] } } }".
Definition project_cfg : JsonConfig :=
  {| extends := Some "@polkadot/dev/config/tsconfig.json";
     compilerOptions :=
       Some {| baseUrl := Some ".";
               paths := Some [("@polkadot/api", ["packages/api/src"]);
                              ("@polkadot/api/*", ["packages/api/src/*"])] |} |}.

Definition project : disk :=
  {| nodes :=
       [("/p", Directory);
        ("/p/tsconfig.json", File project_text);
        ("/p/node_modules", Directory);
        ("/p/node_modules/@polkadot/dev/config/tsconfig.json",
         File dev_config_text);
        ("/p/node_modules/@tsconfig/strictest/tsconfig.json",
         File strictest_text)];
     documents := [(project_text, project_cfg);
                   (dev_config_text, dev_config);
                   (strictest_text, strictest_cfg)] |}.

Definition bad_keys_text : string :=
  "{ compilerOptions: { paths: { '@ok': ['./ok'], '@a/*/*': ['./src/*'], '*/x': [] } } }".
Definition bad_keys_cfg : JsonConfig :=
  {| extends := None;
     compilerOptions :=
       Some {| baseUrl := None;
               paths := Some [("@ok", ["./ok"]); ("@a/*/*", ["./src/*"]);
                              ("*/x", [])] |} |}.

(** A project two of whose keys misplace the marker. *)
Definition bad_keys : disk :=
  {| nodes := [("/p", Directory); ("/p/tsconfig.json", File bad_keys_text)];
     documents := [(bad_keys_text, bad_keys_cfg)] |}.

(** The same project with [tsconfig.json] replaced by a directory. *)
Definition unreadable : disk :=
  {| nodes := [("/p", Directory); ("/p/tsconfig.json", Directory)];
     documents := [] |}.

Definition on (d : disk) : Host := host "/p" "/p/node_modules" d.
End Installed.

(** * Properties *)

(** ** Objects *)

Section ObjFacts.
Context {V : Type}.
Implicit Types (o : obj V) (k : string) (v : V).

Lemma obj_get_set o k k' v :
  obj_get (obj_set o k' v) k = if String.eqb k k' then Some v else obj_get o k.
Proof.
  induction o as [|[k0 v0] o IH]; simpl.
  - reflexivity.
  - destruct (String.eqb_spec k' k0) as [->|Hne]; simpl.
    + destruct (String.eqb k k0); reflexivity.
    + rewrite IH. destruct (String.eqb_spec k k0) as [->|]; [|reflexivity].
      destruct (String.eqb_spec k0 k') as [->|]; [congruence|reflexivity].
Qed.

Lemma obj_get_none o k : obj_get o k = None <-> ~ In k (keys o).
Proof.
  induction o as [|[k0 v0] o IH]; simpl.
  - tauto.
  - destruct (String.eqb_spec k k0) as [->|Hne].
    + split; [discriminate | tauto].
    + rewrite IH. split; [intros Hn [He|Hin]; [congruence|tauto] | tauto].
Qed.

Lemma obj_get_in o k v : obj_wf o -> obj_get o k = Some v <-> In (k, v) o.
Proof.
  unfold obj_wf. induction o as [|[k0 v0] o IH]; simpl; intros Hwf.
  - split; [discriminate | tauto].
  - inversion Hwf as [|? ? Hnotin Hwf']; subst.
    destruct (String.eqb_spec k k0) as [->|Hne].
    + split.
      * intros [= ->]. now left.
      * intros [[= ->]|Hin]; [reflexivity|].
        exfalso. apply Hnotin. apply (in_map fst) in Hin. exact Hin.
    + rewrite (IH Hwf'). split; [tauto|].
      intros [[= -> ->]|Hin]; [congruence | exact Hin].
Qed.

Lemma obj_get_app o o' k :
  obj_get (o ++ o') k =
    match obj_get o k with Some v => Some v | None => obj_get o' k end.
Proof.
  induction o as [|[k0 v0] o IH]; simpl; [reflexivity|].
  destruct (String.eqb k k0); [reflexivity | exact IH].
Qed.

(** Two listings of the same properties answer every lookup alike. *)
Lemma obj_get_perm o o' k :
  Permutation o o' -> obj_wf o -> obj_get o k = obj_get o' k.
Proof.
  intros Hp Hwf.
  assert (Hwf' : obj_wf o').
  { unfold obj_wf, keys in *.
    eapply Permutation_NoDup; [apply Permutation_map, Hp | exact Hwf]. }
  destruct (obj_get o k) as [v|] eqn:E.
  - symmetry. apply (obj_get_in _ _ _ Hwf').
    eapply Permutation_in; [exact Hp|]. now apply obj_get_in.
  - symmetry. apply obj_get_none. intros Hin. apply obj_get_none in E.
    apply E. unfold keys in *.
    eapply Permutation_in; [apply Permutation_map, Permutation_sym, Hp | exact Hin].
Qed.

Lemma insert_sorted_perm (e : string * V) l :
  Permutation (insert_sorted e l) (e :: l).
Proof.
  induction l as [|x l IH]; simpl.
  - apply Permutation_refl.
  - destruct (index_le e x).
    + apply Permutation_refl.
    + eapply perm_trans; [apply perm_skip, IH | apply perm_swap].
Qed.

Lemma sort_index_perm (l : list (string * V)) : Permutation (sort_index l) l.
Proof.
  induction l as [|x l IH]; simpl.
  - apply perm_nil.
  - eapply perm_trans; [apply insert_sorted_perm | apply perm_skip, IH].
Qed.

Lemma filter_split_perm (f : string * V -> bool) (l : list (string * V)) :
  Permutation (List.filter f l ++ List.filter (fun e => negb (f e)) l) l.
Proof.
  induction l as [|x l IH]; simpl.
  - apply perm_nil.
  - destruct (f x); simpl.
    + apply perm_skip, IH.
    + eapply perm_trans; [apply Permutation_sym, Permutation_middle|].
      apply perm_skip, IH.
Qed.

(** [Object.entries] lists every property once. *)
Lemma entries_perm o : Permutation (entries o) o.
Proof.
  unfold entries.
  eapply perm_trans; [apply Permutation_app_tail, sort_index_perm|].
  apply filter_split_perm.
Qed.

Lemma entries_wf o : obj_wf o -> obj_wf (entries o).
Proof.
  unfold obj_wf, keys. intros Hwf.
  eapply Permutation_NoDup; [|exact Hwf].
  apply Permutation_map, Permutation_sym, entries_perm.
Qed.

Lemma entries_get o k : obj_wf o -> obj_get (entries o) k = obj_get o k.
Proof.
  intros Hwf. symmetry. apply obj_get_perm; [|exact Hwf].
  apply Permutation_sym, entries_perm.
Qed.

(** Assigning the properties of a well-formed listing, in order. *)
Lemma assign_get l : forall o k,
  obj_wf l ->
  obj_get (assign o l) k =
    match obj_get l k with Some v => Some v | None => obj_get o k end.
Proof.
  unfold assign, obj_wf.
  induction l as [|[k0 v0] l IH]; simpl; intros o k Hwf; [reflexivity|].
  inversion Hwf as [|? ? Hnotin Hwf']; subst.
  rewrite (IH _ _ Hwf'), obj_get_set.
  destruct (String.eqb_spec k k0) as [->|Hne]; [|reflexivity].
  assert (Hn : obj_get l k0 = None) by now apply obj_get_none.
  now rewrite Hn.
Qed.

(** In [{ ...a, ...b }] the properties of [b] win, the others are those
    of [a]. *)
Lemma spread2_get (a b : obj V) k :
  obj_wf a -> obj_wf b ->
  obj_get (spread2 a b) k =
    match obj_get b k with Some v => Some v | None => obj_get a k end.
Proof.
  intros Ha Hb. unfold spread2.
  rewrite assign_get by now apply entries_wf.
  rewrite assign_get by now apply entries_wf.
  rewrite !entries_get by assumption. simpl.
  destruct (obj_get b k); [reflexivity|]. now destruct (obj_get a k).
Qed.
End ObjFacts.

(** ** Segments and wildcard markers *)

Lemma append_assoc (a b c : string) : (a +++ b) +++ c = a +++ b +++ c.
Proof. induction a as [|x a IH]; simpl; [reflexivity | now rewrite IH]. Qed.

Lemma split_sep_nonempty (s : string) : JS.split_sep s <> [].
Proof.
  destruct s as [|c r]; simpl; [discriminate|].
  destruct (JS.is_sep c); [discriminate|].
  destruct (JS.split_sep r); discriminate.
Qed.

(** A non-empty array is its [slice(0, -1)] followed by its [at(-1)]. *)
Lemma snoc_view {A : Type} (l : list A) :
  l <> [] ->
  exists x, JS.at_m1 l = Some x /\ l = JS.slice_0_m1 l ++ [x].
Proof.
  unfold JS.slice_0_m1.
  induction l as [|a l IH]; intros Hne; [congruence|].
  destruct l as [|b l].
  - exists a. split; reflexivity.
  - destruct IH as [x [Hat Heq]]; [discriminate|].
    exists x. split; [exact Hat|].
    change (removelast (a :: b :: l)) with (a :: removelast (b :: l)).
    simpl app. f_equal. exact Heq.
Qed.

Lemma count_star_app (l l' : list string) :
  JS.count_star (l ++ l') = JS.count_star l + JS.count_star l'.
Proof. unfold JS.count_star. now rewrite filter_app, length_app. Qed.

Lemma count_star_stars (l : list string) : JS.count_star l = stars l.
Proof.
  unfold JS.count_star, stars. induction l as [|s l IH]; simpl; [reflexivity|].
  destruct (String.eqb_spec s "*") as [->|Hne]; simpl.
  - now rewrite IH.
  - destruct (string_dec s "*"); [contradiction | exact IH].
Qed.

Lemma count_star_zero (l : list string) :
  JS.count_star l = 0 <-> ~ In "*" l.
Proof. rewrite count_star_stars. symmetry. apply count_occ_not_In. Qed.

Lemma count_star_last (x : string) :
  JS.count_star [x] = if JS.is_star (Some x) then 1 else 0.
Proof. unfold JS.count_star. simpl. now destruct (String.eqb x "*"). Qed.

(** A marker before the last position is a marker in [slice(0, -1)]. *)
Lemma star_not_last_snoc (l : list string) (x : string) :
  star_not_last (l ++ [x]) <-> In "*" l.
Proof.
  unfold star_not_last. rewrite length_app. simpl. split.
  - intros [i [Hlt Hnth]].
    rewrite nth_error_app1 in Hnth by lia.
    eapply nth_error_In, Hnth.
  - intros Hin. apply In_nth_error in Hin. destruct Hin as [i Hi].
    assert (i < length l) by (apply nth_error_Some; congruence).
    exists i. split; [lia|]. now rewrite nth_error_app1.
Qed.

Lemma rejects_iff_front (key : string) :
  rejects key = true <-> In "*" (JS.slice_0_m1 (JS.split_sep key)).
Proof.
  unfold rejects.
  destruct (snoc_view (JS.split_sep key) (split_sep_nonempty key))
    as [x [Hat Heq]].
  rewrite Hat.
  set (front := JS.slice_0_m1 (JS.split_sep key)) in *.
  rewrite Heq at 1. rewrite count_star_app, count_star_last.
  rewrite andb_true_iff, negb_true_iff, Nat.eqb_neq.
  split.
  - intros [Hcount _].
    destruct (in_dec string_dec "*" front) as [Hin|Hnin]; [exact Hin|].
    apply count_star_zero in Hnin. rewrite Hnin in Hcount. simpl in Hcount.
    congruence.
  - intros Hin. split.
    + intros Hcount.
      assert (JS.count_star front = 0)
        by (destruct (JS.is_star (Some x)); lia).
      now apply count_star_zero in H.
    + destruct key; [|reflexivity].
      subst front. simpl in Hin. contradiction.
Qed.

Lemma invalid_key_iff_front (key : string) :
  invalid_key key <-> In "*" (JS.slice_0_m1 (JS.split_sep key)).
Proof.
  unfold invalid_key.
  destruct (snoc_view (JS.split_sep key) (split_sep_nonempty key))
    as [x [Hat Heq]].
  set (front := JS.slice_0_m1 (JS.split_sep key)) in *.
  rewrite Heq. rewrite star_not_last_snoc.
  rewrite <- count_star_stars, count_star_app, count_star_last.
  split; [|tauto].
  intros [Hmany|Hin]; [|exact Hin].
  destruct (in_dec string_dec "*" front) as [Hin|Hnin]; [exact Hin|].
  apply count_star_zero in Hnin.
  destruct (JS.is_star (Some x)); lia.
Qed.

Lemma rejects_iff_invalid (key : string) : rejects key = true <-> invalid_key key.
Proof. now rewrite rejects_iff_front, invalid_key_iff_front. Qed.

Lemma alias_of_entry_eq (u : URL) (key : string) (targets : list string) :
  alias_of_entry u (key, targets) =
    if rejects key
    then Throw {| message := wildcard_message key (hd_error targets) |}
    else
      let segs := JS.split_sep key in
      let w := JS.is_star (JS.at_m1 segs) in
      Normal {| filter := if w then JS.slice_0_m1 segs else segs;
                isWildcard := w;
                path := hd_error targets;
                url := u |}.
Proof. reflexivity. Qed.

Lemma alias_filter_no_star (u : URL) (key : string) (targets : list string)
    (a : Alias) :
  alias_of_entry u (key, targets) = Normal a -> ~ In "*" (filter a).
Proof.
  rewrite alias_of_entry_eq.
  destruct (rejects key) eqn:Hrej; [discriminate|].
  intros [= <-]. simpl.
  assert (Hfront : ~ In "*" (JS.slice_0_m1 (JS.split_sep key))).
  { intros Hin. apply rejects_iff_front in Hin. congruence. }
  destruct (snoc_view (JS.split_sep key) (split_sep_nonempty key))
    as [x [Hat Heq]].
  rewrite Hat. destruct (JS.is_star (Some x)) eqn:Hx; [exact Hfront|].
  rewrite Heq. intros Hin. apply in_app_or in Hin.
  destruct Hin as [Hin|[Hlast|[]]]; [now apply Hfront|].
  subst x. simpl in Hx. discriminate.
Qed.

(** ** Mapping a callback that may throw *)

Lemma map_completion_normal {A B} (f : A -> completion B) (l : list A) :
  forall ys, map_completion f l = Normal ys ->
  forall y, In y ys -> exists x, In x l /\ f x = Normal y.
Proof.
  induction l as [|x l IH]; simpl; intros ys Hmap y Hin.
  - injection Hmap as <-. contradiction.
  - destruct (f x) as [y0|e] eqn:Hfx; [|discriminate].
    destruct (map_completion f l) as [ys0|e]; [|discriminate].
    injection Hmap as <-. destruct Hin as [<-|Hin].
    + exists x. split; [now left | exact Hfx].
    + destruct (IH ys0 eq_refl y Hin) as [x' [Hx' Hf]].
      exists x'. split; [now right | exact Hf].
Qed.

Lemma map_completion_throw {A B} (f : A -> completion B) (l : list A) :
  (exists e, map_completion f l = Throw e)
  <-> exists x, In x l /\ exists e, f x = Throw e.
Proof.
  induction l as [|x l IH]; simpl.
  - split; [intros [e He]; discriminate | intros [x [[] _]]].
  - destruct (f x) as [y|e] eqn:Hfx.
    + destruct (map_completion f l) as [ys|e'].
      * split; [intros [e He]; discriminate|].
        intros [x' [[<-|Hin] [e He]]]; [congruence|].
        assert (Hex : exists e0, @Normal (list B) ys = Throw e0)
          by (apply IH; eauto).
        destruct Hex as [e0 He0]. discriminate.
      * split; [|eauto].
        intros _. destruct IH as [IH _].
        destruct (IH (ex_intro _ e' eq_refl)) as [x' [Hin He]]. eauto.
    + split; [|eauto]. intros _. exists x. eauto.
Qed.

(** ** Alias rules *)

Lemma alias_throws_iff_invalid (u : URL) (key : string)
    (targets : list string) :
  (exists e, alias_of_entry u (key, targets) = Throw e) <-> invalid_key key.
Proof.
  rewrite alias_of_entry_eq, <- rejects_iff_invalid.
  destruct (rejects key); split; eauto; try discriminate.
  intros [e He]. discriminate.
Qed.

(** The callback refuses an entry, with the wildcard error, exactly when its
    key is invalid; every other key gives a rule. *)
Lemma alias_refused_or_compiled (u : URL) (key : string)
    (targets : list string) :
  ((exists e, alias_of_entry u (key, targets) = Throw e) <-> invalid_key key)
  /\ ((invalid_key key
       /\ alias_of_entry u (key, targets)
          = Throw {| message := wildcard_message key (hd_error targets) |})
      \/ (~ invalid_key key
          /\ exists a, alias_of_entry u (key, targets) = Normal a)).
Proof.
  rewrite alias_of_entry_eq.
  destruct (rejects key) eqn:Hrej.
  - assert (Hinv : invalid_key key) by now apply rejects_iff_invalid.
    split; [split; [intros _; exact Hinv | eauto] | left; split; auto].
  - assert (Hok : ~ invalid_key key).
    { intros Hinv. apply rejects_iff_invalid in Hinv. congruence. }
    split.
    + split; [intros [e He]; discriminate | intros Hinv; contradiction].
    + right. split; [exact Hok | eauto].
Qed.

Example two_wildcards_refused :
  alias_of_entry {| href := "file:///p/" |} ("@a/*/*", ["./src/*"])
  = Throw {| message := wildcard_message "@a/*/*" (Some "./src/*") |}.
Proof. reflexivity. Qed.

Example inner_wildcard_refused :
  alias_of_entry {| href := "file:///p/" |} ("@app/*/extra", ["./src/*"])
  = Throw {| message := wildcard_message "@app/*/extra" (Some "./src/*") |}.
Proof. reflexivity. Qed.

(** C8: ["@app/*"] with first target ["./src/*"] compiles to the rule with
    filter [["@app"]], [isWildcard = true] and that target; in general the
    filter of a rule is the segment list of its key, without the trailing
    [*] when the key is a wildcard key. *)
Theorem alias_filter_shape (u : URL) (key : string) (targets : list string)
    (a : Alias) :
  alias_of_entry u ("@app/*", ["./src/*"])
  = Normal {| filter := ["@app"]; isWildcard := true;
              path := Some "./src/*"; url := u |}
  /\ (alias_of_entry u (key, targets) = Normal a ->
      isWildcard a = JS.is_star (JS.at_m1 (JS.split_sep key))
      /\ filter a = (if isWildcard a
                     then JS.slice_0_m1 (JS.split_sep key)
                     else JS.split_sep key)
      /\ path a = hd_error targets
      /\ url a = u).
Proof.
  split; [reflexivity|].
  rewrite alias_of_entry_eq.
  destruct (rejects key); [discriminate|]. intros [= <-]. simpl. auto.
Qed.

Lemma alias_filter_shape_witness :
  filter {| filter := ["@polkadot"; "api"]; isWildcard := false;
            path := Some "./packages/api/src";
            url := {| href := "file:///p/" |} |}
  = JS.split_sep "@polkadot/api".
Proof.
  destruct (alias_filter_shape {| href := "file:///p/" |} "@polkadot/api"
              ["./packages/api/src"]
              {| filter := ["@polkadot"; "api"]; isWildcard := false;
                 path := Some "./packages/api/src";
                 url := {| href := "file:///p/" |} |}) as [_ Hgen].
  destruct (Hgen eq_refl) as [_ [Hfilter _]]. exact Hfilter.
Defined.

(** ** One call of [readConfigFile] *)

Section ResolverFacts.
Variable H : Host.

Local Abbreviation configFile_of cp ts := (path_join H [cp; ts]).

Lemma readConfigFile_eq fuel cp ts from :
  readConfigFile H fuel cp ts from =
    if negb (existsSync H (configFile_of cp ts)) then
      Some ([Warn (missing_warning (configFile_of cp ts) from)],
            Normal {| cfg_paths := []; cfg_url := None |})
    else
      match load H (configFile_of cp ts) with
      | Throw e =>
          Some ([Error (parse_diagnostic (configFile_of cp ts) e)], Throw e)
      | Normal cfg =>
          try_catch (after_load H fuel cp (configFile_of cp ts) cfg)
                    (rethrow (configFile_of cp ts))
      end.
Proof.
  unfold load, after_load.
  destruct fuel; simpl;
    destruct (existsSync H (configFile_of cp ts)); simpl; try reflexivity;
    destruct (readFileSync H (configFile_of cp ts)) as [text|e]; simpl;
      try reflexivity;
    destruct (JSON5_parse H text) as [cfg|e]; simpl; try reflexivity;
    destruct (parentConfig cfg); simpl; try reflexivity.
  - destruct (readConfigFile H fuel _ _ _) as [[l [c|e]]|]; simpl;
      rewrite ?app_nil_r; reflexivity.
Qed.

Lemma readConfigFile_missing fuel cp ts from :
  existsSync H (configFile_of cp ts) = false ->
  readConfigFile H fuel cp ts from =
    Some ([Warn (missing_warning (configFile_of cp ts) from)],
          Normal {| cfg_paths := []; cfg_url := None |}).
Proof. intros He. now rewrite readConfigFile_eq, He. Qed.

Lemma readConfigFile_load_fails fuel cp ts from e :
  existsSync H (configFile_of cp ts) = true ->
  load H (configFile_of cp ts) = Throw e ->
  readConfigFile H fuel cp ts from =
    Some ([Error (parse_diagnostic (configFile_of cp ts) e)], Throw e).
Proof. intros He Hl. now rewrite readConfigFile_eq, He, Hl. Qed.

Lemma readConfigFile_leaf fuel cp ts from cfg :
  existsSync H (configFile_of cp ts) = true ->
  load H (configFile_of cp ts) = Normal cfg ->
  parentConfig cfg = None ->
  readConfigFile H fuel cp ts from =
    Some ([], Normal {| cfg_paths := own_paths cfg;
                        cfg_url := own_url H (configFile_of cp ts) cfg |}).
Proof.
  intros He Hl Hp. rewrite readConfigFile_eq, He, Hl. unfold after_load.
  now rewrite Hp.
Qed.

(** The three outcomes of the recursive call, seen from the caller. *)
Lemma readConfigFile_extends fuel cp ts from cfg parent :
  existsSync H (configFile_of cp ts) = true ->
  load H (configFile_of cp ts) = Normal cfg ->
  parentConfig cfg = Some parent ->
  readConfigFile H (S fuel) cp ts from =
    match readConfigFile H fuel (extPath H cp parent) (extFile parent)
            (Some (configFile_of cp ts)) with
    | None => None
    | Some (log, Throw e) =>
        Some (log ++ [Error (parse_diagnostic (configFile_of cp ts) e)],
              Throw e)
    | Some (log, Normal extConfig) =>
        Some (log, Normal (merge_parent H (configFile_of cp ts) cfg extConfig))
    end.
Proof.
  intros He Hl Hp. rewrite readConfigFile_eq, He, Hl. unfold after_load.
  rewrite Hp. simpl.
  destruct (readConfigFile H fuel _ _ _) as [[l [c|e]]|]; simpl;
    rewrite ?app_nil_r; reflexivity.
Qed.

Lemma readConfigFile_no_fuel cp ts from cfg parent :
  existsSync H (configFile_of cp ts) = true ->
  load H (configFile_of cp ts) = Normal cfg ->
  parentConfig cfg = Some parent ->
  readConfigFile H 0 cp ts from =
    Some ([Error (parse_diagnostic (configFile_of cp ts) stack_overflow)],
          Throw stack_overflow).
Proof.
  intros He Hl Hp. rewrite readConfigFile_eq, He, Hl. unfold after_load.
  now rewrite Hp.
Qed.

Lemma load_parsed configFile text cfg :
  readFileSync H configFile = Normal text ->
  JSON5_parse H text = Normal cfg ->
  load H configFile = Normal cfg.
Proof. unfold load. now intros -> ->. Qed.

Lemma load_unparsable configFile text e :
  readFileSync H configFile = Normal text ->
  JSON5_parse H text = Throw e ->
  load H configFile = Throw e.
Proof. unfold load. now intros -> ->. Qed.

Lemma parentConfig_truthy cfg ref :
  extends cfg = Some ref -> JS.truthy ref = true -> parentConfig cfg = Some ref.
Proof. unfold parentConfig. now intros -> ->. Qed.

Lemma extSubs_last ref :
  exists file, JS.at_m1 (JS.split_sep ref) = Some file /\ extFile ref = file.
Proof.
  unfold extFile, extSubs.
  destruct (snoc_view (JS.split_sep ref) (split_sep_nonempty ref))
    as [x [Hat _]].
  exists x. now rewrite Hat.
Qed.
End ResolverFacts.

Lemma chain_eq (H : Host) (fuel : nat) (cp ts : string) :
  chain H fuel cp ts =
    if negb (existsSync H (path_join H [cp; ts])) then []
    else
      (path_join H [cp; ts], load H (path_join H [cp; ts]))
        :: match load H (path_join H [cp; ts]) with
           | Normal cfg =>
               match parentConfig cfg, fuel with
               | Some parent, S fuel' =>
                   chain H fuel' (extPath H cp parent) (extFile parent)
               | _, _ => []
               end
           | Throw _ => []
           end.
Proof. destruct fuel; reflexivity. Qed.

Lemma extractAliases_rethrows (H : Host) (fuel : nat) log e :
  readConfigFile H fuel (CWD_PATH H) "tsconfig.json" None = Some (log, Throw e) ->
  extractAliases H fuel = Some (log, Throw e).
Proof. unfold extractAliases. now intros ->. Qed.

Lemma extractAliases_compiles (H : Host) (fuel : nat) log cfg :
  readConfigFile H fuel (CWD_PATH H) "tsconfig.json" None = Some (log, Normal cfg) ->
  extractAliases H fuel =
    Some (log,
          map_completion
            (alias_of_entry
               (match cfg_url cfg with Some u => u | None => CWD_URL H end))
            (entries (cfg_paths cfg))).
Proof. unfold extractAliases. intros ->. simpl. now rewrite app_nil_r. Qed.

(** ** Missing and unparsable files *)

(** C4: when the computed path does not exist, [readConfigFile] returns
    [{ paths: {} }] without a url and does not throw; all it does is log one
    warning, which names the requesting file when the call comes from the
    resolution of an [extends]. *)
Theorem missing_file_gives_defaults (H : Host) (fuel : nat) (cp ts : string)
    (from : option string) :
  existsSync H (path_join H [cp; ts]) = false ->
  readConfigFile H fuel cp ts from
  = Some ([Warn (missing_warning (path_join H [cp; ts]) from)],
          Normal {| cfg_paths := []; cfg_url := None |})
  /\ missing_warning (path_join H [cp; ts]) None
     = "No " +++ path_join H [cp; ts] +++ " found, assuming defaults"
  /\ forall fuel' ccp cts cfrom cfg parent,
       existsSync H (path_join H [ccp; cts]) = true ->
       load H (path_join H [ccp; cts]) = Normal cfg ->
       parentConfig cfg = Some parent ->
       extPath H ccp parent = cp ->
       extFile parent = ts ->
       readConfigFile H (S fuel') ccp cts cfrom
       = Some ([Warn ("No " +++ path_join H [cp; ts] +++ " (extended from "
                        +++ path_join H [ccp; cts]
                        +++ ") found, assuming defaults")],
               Normal (merge_parent H (path_join H [ccp; cts]) cfg
                         {| cfg_paths := []; cfg_url := None |})).
Proof.
  intros Hmiss. split; [now apply readConfigFile_missing|].
  split; [reflexivity|].
  intros fuel' ccp cts cfrom cfg parent He Hl Hp Hcp Hts.
  rewrite (readConfigFile_extends H fuel' ccp cts cfrom cfg parent He Hl Hp).
  rewrite Hcp, Hts, (readConfigFile_missing H _ _ _ _ Hmiss).
  unfold missing_warning, JS.truthy_opt, JS.show.
  rewrite (path_join_truthy H).
  do 3 f_equal. now rewrite !append_assoc.
Qed.

Lemma missing_file_gives_defaults_witness :
  readConfigFile (Sample.on Sample.bare) 0 "/p" "tsconfig.json" None
  = Some ([Warn "No /p/tsconfig.json found, assuming defaults"],
          Normal {| cfg_paths := []; cfg_url := None |})
  /\ readConfigFile (Sample.on Sample.missing_parent) 1 "/p" "tsconfig.json" None
     = Some ([Warn "No /m/@tsconfig/strictest/tsconfig.json (extended from /p/tsconfig.json) found, assuming defaults"],
             Normal {| cfg_paths := []; cfg_url := None |}).
Proof.
  split.
  - exact (proj1 (missing_file_gives_defaults (Sample.on Sample.bare) 0
                    "/p" "tsconfig.json" None eq_refl)).
  - exact (proj2 (proj2 (missing_file_gives_defaults
                           (Sample.on Sample.missing_parent) 0
                           "/m/@tsconfig/strictest" "tsconfig.json" None
                           eq_refl))
             0 "/p" "tsconfig.json" None Sample.missing_parent_cfg
             "@tsconfig/strictest/tsconfig.json"
             eq_refl eq_refl eq_refl eq_refl eq_refl).
Defined.

(** C5: a file of the chain that exists but does not parse makes the whole
    resolution throw the parser's error: the diagnostic naming that file is
    logged, no caller up the chain recovers, and [extractAliases] throws the
    same error. *)
Theorem parse_failure_is_fatal (H : Host) (fuel : nat) :
  forall (cp ts : string) (from : option string) (configFile text : string)
         (e : JsError),
  In configFile (map fst (chain H fuel cp ts)) ->
  readFileSync H configFile = Normal text ->
  JSON5_parse H text = Throw e ->
  exists log,
    readConfigFile H fuel cp ts from = Some (log, Throw e)
    /\ In (Error (parse_diagnostic configFile e)) log
    /\ (cp = CWD_PATH H -> ts = "tsconfig.json" -> from = None ->
        extractAliases H fuel = Some (log, Throw e)).
Proof.
  induction fuel as [|fuel IH]; intros cp ts from configFile text e Hin Hread Hparse;
    pose proof (load_unparsable H _ _ _ Hread Hparse) as Hload;
    rewrite chain_eq in Hin;
    destruct (existsSync H (path_join H [cp; ts])) eqn:He; simpl in Hin;
      try contradiction;
    destruct (load H (path_join H [cp; ts])) as [cfg|e'] eqn:Hl.
  - destruct (parentConfig cfg); simpl in Hin;
      destruct Hin as [<-|[]]; congruence.
  - destruct Hin as [<-|[]].
    assert (e' = e) by congruence. subst e'.
    exists [Error (parse_diagnostic (path_join H [cp; ts]) e)].
    rewrite (readConfigFile_load_fails H _ _ _ _ _ He Hl).
    split; [reflexivity|]. split; [now left|].
    intros -> -> ->. apply extractAliases_rethrows.
    now apply readConfigFile_load_fails.
  - destruct Hin as [<-|Hin]; [congruence|].
    destruct (parentConfig cfg) as [parent|] eqn:Hp; [|contradiction].
    destruct (IH (extPath H cp parent) (extFile parent)
                (Some (path_join H [cp; ts])) configFile text e
                Hin Hread Hparse) as [log [Hrec [Hdiag _]]].
    exists (log ++ [Error (parse_diagnostic (path_join H [cp; ts]) e)]).
    assert (Hres : readConfigFile H (S fuel) cp ts from
                   = Some (log ++ [Error (parse_diagnostic (path_join H [cp; ts]) e)],
                           Throw e)).
    { rewrite (readConfigFile_extends H _ _ _ _ _ _ He Hl Hp). now rewrite Hrec. }
    split; [exact Hres|]. split; [apply in_or_app; now left|].
    intros -> -> ->. now apply extractAliases_rethrows.
  - destruct Hin as [<-|[]].
    assert (e' = e) by congruence. subst e'.
    exists [Error (parse_diagnostic (path_join H [cp; ts]) e)].
    rewrite (readConfigFile_load_fails H _ _ _ _ _ He Hl).
    split; [reflexivity|]. split; [now left|].
    intros -> -> ->. apply extractAliases_rethrows.
    now apply readConfigFile_load_fails.
Qed.

Lemma parse_failure_is_fatal_witness :
  exists log,
    readConfigFile (Sample.on Sample.broken_base) 1 "/p" "tsconfig.json" None
    = Some (log, Throw {| message := "JSON5: invalid end of input at 1:2" |})
    /\ In (Error "FATAL: Error parsing /p/base/tsconfig.base.json:: JSON5: invalid end of input at 1:2")
          log
    /\ extractAliases (Sample.on Sample.broken_base) 1
       = Some (log, Throw {| message := "JSON5: invalid end of input at 1:2" |}).
Proof.
  destruct (parse_failure_is_fatal (Sample.on Sample.broken_base) 1
              "/p" "tsconfig.json" None "/p/base/tsconfig.base.json"
              Sample.broken_text
              {| message := "JSON5: invalid end of input at 1:2" |})
    as [log [Hres [Hdiag Htop]]].
  - simpl. right. left. reflexivity.
  - reflexivity.
  - reflexivity.
  - exists log. split; [exact Hres|]. split; [exact Hdiag|].
    apply Htop; reflexivity.
Defined.

(** ** Following [extends] *)

(** An empty [extends] is not followed: the rule of C6 would have the
    package root itself read as the parent file. *)
Lemma empty_extends_not_followed :
  readConfigFile (Sample.on Sample.empty_extends) 1 "/p" "tsconfig.json" None
  <> try_catch
       (bind (readConfigFile (Sample.on Sample.empty_extends) 0
                (path_join (Sample.on Sample.empty_extends)
                   ((if JS.startsWith_dot "" then "/p"
                     else MOD_PATH (Sample.on Sample.empty_extends))
                    :: removelast (JS.split_sep "")))
                ""
                (Some "/p/tsconfig.json"))
             (fun extConfig =>
                ret (merge_parent (Sample.on Sample.empty_extends)
                       "/p/tsconfig.json" Sample.empty_extends_cfg extConfig)))
       (rethrow "/p/tsconfig.json").
Proof. vm_compute. discriminate. Qed.

(** ** Merging *)

(** C2: when A extends B and B extends nothing, a key of A resolves to A's
    targets in the merged paths, and a key only B has keeps B's targets. *)
Theorem child_paths_override_parent (H : Host) (fuel : nat) (cp ts : string)
    (from : option string) (textA textB : string) (cfgA cfgB : JsonConfig)
    (ref : string) :
  existsSync H (path_join H [cp; ts]) = true ->
  readFileSync H (path_join H [cp; ts]) = Normal textA ->
  JSON5_parse H textA = Normal cfgA ->
  parentConfig cfgA = Some ref ->
  existsSync H (path_join H [extPath H cp ref; extFile ref]) = true ->
  readFileSync H (path_join H [extPath H cp ref; extFile ref]) = Normal textB ->
  JSON5_parse H textB = Normal cfgB ->
  parentConfig cfgB = None ->
  obj_wf (own_paths cfgA) ->
  obj_wf (own_paths cfgB) ->
  exists log merged,
    readConfigFile H (S fuel) cp ts from = Some (log, Normal merged)
    /\ (forall key targets,
          obj_get (own_paths cfgA) key = Some targets ->
          obj_get (cfg_paths merged) key = Some targets)
    /\ (forall key targets,
          obj_get (own_paths cfgA) key = None ->
          obj_get (own_paths cfgB) key = Some targets ->
          obj_get (cfg_paths merged) key = Some targets).
Proof.
  intros HeA HrA HpA HextA HeB HrB HpB HextB HwfA HwfB.
  pose proof (load_parsed H _ _ _ HrA HpA) as HlA.
  pose proof (load_parsed H _ _ _ HrB HpB) as HlB.
  rewrite (readConfigFile_extends H fuel cp ts from cfgA ref HeA HlA HextA).
  rewrite (readConfigFile_leaf H fuel _ _ _ cfgB HeB HlB HextB).
  eexists. eexists. split; [reflexivity|].
  unfold merge_parent. simpl cfg_paths.
  split; intros key targets.
  - intros HA. rewrite spread2_get by assumption. now rewrite HA.
  - intros HA HB. rewrite spread2_get by assumption. now rewrite HA.
Qed.

Ltac distinct_keys :=
  unfold obj_wf; simpl;
  repeat (constructor; [simpl; intuition discriminate|]); constructor.

Lemma child_paths_override_parent_witness :
  exists log merged,
    readConfigFile (Sample.on Sample.two_level) 1 "/p" "tsconfig.json" None
    = Some (log, Normal merged)
    /\ obj_get (cfg_paths merged) "@app/*" = Some ["./src/*"; "./gen/*"]
    /\ obj_get (cfg_paths merged) "@lib" = Some ["./index.ts"].
Proof.
  destruct (child_paths_override_parent (Sample.on Sample.two_level) 0
              "/p" "tsconfig.json" None Sample.project_text Sample.base_text
              Sample.project_cfg Sample.base_cfg "./base/tsconfig.base.json")
    as [log [merged [Hres [Hown Hinherited]]]];
    try reflexivity; try distinct_keys.
  exists log, merged. split; [exact Hres|]. split.
  - apply Hown. reflexivity.
  - apply Hinherited; reflexivity.
Defined.

(** C3, for files that set a non-empty [baseUrl]: the url of the merged
    result is the resolved [baseUrl] of the nearest file of the chain that
    sets one, the starting file first; when no file of the chain sets one
    the result has no url. *)
Theorem nearest_baseUrl_wins (H : Host) (fuel : nat) :
  forall (cp ts : string) (from : option string) (log : list log_entry)
         (merged : PartialConfig),
  readConfigFile H fuel cp ts from = Some (log, Normal merged) ->
  cfg_url merged = nearest_baseUrl H own_baseUrl (chain H fuel cp ts).
Proof.
  induction fuel as [|fuel IH]; intros cp ts from log merged;
    rewrite readConfigFile_eq, chain_eq;
    destruct (existsSync H (path_join H [cp; ts])); simpl;
    try (intros [= <- <-]; reflexivity);
    destruct (load H (path_join H [cp; ts])) as [cfg|e]; try discriminate;
    unfold after_load, own_url;
    destruct (parentConfig cfg) as [parent|]; simpl; try discriminate;
    try (intros [= <- <-]; simpl; now destruct (own_baseUrl cfg)).
  destruct (readConfigFile H fuel _ _ _) as [[l [ext|e]]|] eqn:Hrec; simpl;
    try discriminate.
  intros [= <- <-]. simpl. unfold own_url.
  destruct (own_baseUrl cfg); simpl; [reflexivity|].
  now apply (IH _ _ _ _ _ Hrec).
Qed.

Lemma nearest_baseUrl_wins_witness :
  cfg_url
    {| cfg_paths := [("@app/*", ["./src/*"; "./gen/*"]);
                     ("@lib", ["./index.ts"]); ("@ui", ["./ui/index.ts"])];
       cfg_url := Some {| href := "file:///p/base/lib/" |} |}
  = nearest_baseUrl (Sample.on Sample.two_level) own_baseUrl
      (chain (Sample.on Sample.two_level) 1 "/p" "tsconfig.json").
Proof.
  exact (nearest_baseUrl_wins (Sample.on Sample.two_level) 1
           "/p" "tsconfig.json" None [] _ eq_refl).
Defined.

(** A [baseUrl] set to the empty string does not win: the url of the parent
    is inherited, where C3 has the directory of the child. *)
Lemma empty_baseUrl_is_inherited :
  readConfigFile (Sample.on Sample.empty_baseUrl) 1 "/p" "tsconfig.json" None
  = Some ([], Normal {| cfg_paths := [("@app/*", ["./old/*"]);
                                      ("@lib", ["./index.ts"])];
                        cfg_url := Some {| href := "file:///p/base/lib/" |} |})
  /\ nearest_baseUrl (Sample.on Sample.empty_baseUrl) declared_baseUrl
       (chain (Sample.on Sample.empty_baseUrl) 1 "/p" "tsconfig.json")
     = Some {| href := "file:///p/" |}
  /\ ~ (forall log merged,
          readConfigFile (Sample.on Sample.empty_baseUrl) 1
            "/p" "tsconfig.json" None = Some (log, Normal merged) ->
          cfg_url merged
          = nearest_baseUrl (Sample.on Sample.empty_baseUrl) declared_baseUrl
              (chain (Sample.on Sample.empty_baseUrl) 1 "/p" "tsconfig.json")).
Proof.
  split; [reflexivity|]. split; [reflexivity|].
  intros Hclaim. specialize (Hclaim _ _ eq_refl). discriminate Hclaim.
Qed.

(** ** Returning *)

Lemma chain_within_eq (H : Host) (n : nat) (cp ts : string) :
  chain_within H n cp ts =
    match next_hop H cp ts with
    | None => true
    | Some (p, f) =>
        match n with O => false | S n' => chain_within H n' p f end
    end.
Proof. destruct n; reflexivity. Qed.

(** With room for the whole chain, more room does not change the result. *)
Lemma readConfigFile_fuel_mono (H : Host) (n : nat) :
  forall cp ts from,
  chain_within H n cp ts = true ->
  forall m, n <= m ->
  readConfigFile H m cp ts from = readConfigFile H n cp ts from.
Proof.
  induction n as [|n IH]; intros cp ts from Hin m Hle;
    rewrite chain_within_eq in Hin; unfold next_hop in Hin;
    rewrite !readConfigFile_eq;
    destruct (existsSync H (path_join H [cp; ts])); simpl in *;
    try reflexivity;
    destruct (load H (path_join H [cp; ts])) as [cfg|e]; try reflexivity;
    unfold after_load;
    destruct (parentConfig cfg) as [parent|]; try reflexivity;
    try discriminate.
  destruct m as [|m]; [lia|].
  now rewrite (IH _ _ (Some (path_join H [cp; ts])) Hin m) by lia.
Qed.

Lemma resolves_within (H : Host) (n : nat) :
  forall cp ts from,
  chain_within H n cp ts = true ->
  exists log c,
    readConfigFile H n cp ts from = Some (log, c)
    /\ forall e, c = Throw e ->
         exists configFile,
           In configFile (map fst (chain H n cp ts))
           /\ load H configFile = Throw e.
Proof.
  induction n as [|n IH]; intros cp ts from;
    rewrite chain_within_eq, readConfigFile_eq, chain_eq; unfold next_hop;
    destruct (existsSync H (path_join H [cp; ts])) eqn:He; simpl;
    try (intros _; do 2 eexists; split; [reflexivity | discriminate]);
    destruct (load H (path_join H [cp; ts])) as [cfg|e0] eqn:Hl;
    try (intros _; do 2 eexists; split; [reflexivity|];
         intros e [= <-]; eexists; split; [left; reflexivity | exact Hl]);
    unfold after_load;
    destruct (parentConfig cfg) as [parent|] eqn:Hp; simpl;
    try discriminate;
    try (intros _; do 2 eexists; split; [reflexivity | discriminate]).
  intros Hin.
  destruct (IH _ _ (Some (path_join H [cp; ts])) Hin) as [log [c [Hrec Herr]]].
  rewrite Hrec. destruct c as [ext|e]; simpl.
  - do 2 eexists. split; [reflexivity | discriminate].
  - do 2 eexists. split; [reflexivity|].
    intros e' [= <-]. destruct (Herr e eq_refl) as [cf [Hcf Hload]].
    exists cf. split; [now right | exact Hload].
Qed.

(** Without room for the whole chain, every call loads its file, the
    innermost one cannot make its recursive call, and every call logs the
    engine's error and throws it on. *)
Lemma overflows_beyond (H : Host) (n : nat) :
  forall cp ts from,
  chain_within H n cp ts = false ->
  readConfigFile H n cp ts from
  = Some (diagnostics stack_overflow (rev (map fst (chain H n cp ts))),
          Throw stack_overflow)
  /\ length (chain H n cp ts) = S n
  /\ forall f c, In (f, c) (chain H n cp ts) -> exists cfg, c = Normal cfg.
Proof.
  induction n as [|n IH]; intros cp ts from;
    rewrite chain_within_eq, readConfigFile_eq, chain_eq; unfold next_hop;
    destruct (existsSync H (path_join H [cp; ts])) eqn:He; simpl;
    try discriminate;
    destruct (load H (path_join H [cp; ts])) as [cfg|e0] eqn:Hl;
    try discriminate;
    unfold after_load;
    destruct (parentConfig cfg) as [parent|] eqn:Hp; simpl;
    try discriminate.
  - intros _. split; [reflexivity|]. split; [reflexivity|].
    intros f c [[= <- <-]|[]]. eauto.
  - intros Hin.
    destruct (IH _ _ (Some (path_join H [cp; ts])) Hin) as [Hrec [Hlen Hall]].
    rewrite Hrec. simpl. split; [|split].
    + unfold diagnostics. now rewrite map_app.
    + now rewrite Hlen.
    + intros f c [[= <- <-]|Hin']; [eauto | now apply (Hall f c)].
Qed.

(** Every call of [readConfigFile] returns. *)
Lemma readConfigFile_returns (H : Host) (n : nat) (cp ts : string)
    (from : option string) :
  exists log c, readConfigFile H n cp ts from = Some (log, c).
Proof.
  destruct (chain_within H n cp ts) eqn:Hin.
  - destruct (resolves_within H n cp ts from Hin) as [log [c [Hres _]]]. eauto.
  - destruct (overflows_beyond H n cp ts from Hin) as [Hres _]. eauto.
Qed.

(** C9, with the call stack: at every depth of the call stack the
    resolution returns. When the chain ends within that depth it completes
    or throws the error that reading or parsing a file of the chain raised,
    and a deeper stack gives the same; when the chain does not end within
    it, every file reached loads, and the resolution throws the engine's
    error for the full stack after one diagnostic per nested call. *)
Theorem resolution_always_returns (H : Host) (n : nat) (cp ts : string)
    (from : option string) :
  exists log c,
    readConfigFile H n cp ts from = Some (log, c)
    /\ ((chain_within H n cp ts = true
         /\ (forall m, n <= m -> readConfigFile H m cp ts from = Some (log, c))
         /\ forall e, c = Throw e ->
              exists configFile,
                In configFile (map fst (chain H n cp ts))
                /\ load H configFile = Throw e)
        \/ (chain_within H n cp ts = false
            /\ c = Throw stack_overflow
            /\ log = diagnostics stack_overflow
                       (rev (map fst (chain H n cp ts)))
            /\ length (chain H n cp ts) = S n
            /\ forall f c', In (f, c') (chain H n cp ts) ->
                 exists cfg, c' = Normal cfg)).
Proof.
  destruct (chain_within H n cp ts) eqn:Hin.
  - destruct (resolves_within H n cp ts from Hin) as [log [c [Hres Herr]]].
    exists log, c. split; [exact Hres|]. left.
    split; [reflexivity|]. split; [|exact Herr].
    intros m Hle.
    now rewrite (readConfigFile_fuel_mono H n cp ts from Hin m Hle).
  - destruct (overflows_beyond H n cp ts from Hin) as [Hres [Hlen Hall]].
    do 2 eexists. split; [exact Hres|]. right. auto.
Qed.

Lemma resolution_always_returns_witness :
  (exists log c,
     readConfigFile (Sample.on Sample.two_level) 5 "/p" "tsconfig.json" None
     = Some (log, c))
  /\ length (chain (Sample.on Sample.self_extending) 2 "/p" "tsconfig.json") = 3.
Proof.
  split.
  - destruct (resolution_always_returns (Sample.on Sample.two_level) 1
                "/p" "tsconfig.json" None)
      as [log [c [_ [[_ [Hmore _]]|[Hin _]]]]].
    + exists log, c. apply Hmore. lia.
    + discriminate Hin.
  - destruct (resolution_always_returns (Sample.on Sample.self_extending) 2
                "/p" "tsconfig.json" None)
      as [log [c [_ [[Hin _]|[_ [_ [_ [Hlen _]]]]]]]].
    + discriminate Hin.
    + exact Hlen.
Defined.

(** A configuration that extends itself is read once per nested call, at
    any depth of the call stack, and the resolution throws the engine's
    error. *)
Lemma self_extending_overflows_at_any_depth (n : nat) (from : option string) :
  readConfigFile (Sample.on Sample.self_extending) n "/p" "tsconfig.json" from
  = Some (diagnostics stack_overflow (repeat "/p/tsconfig.json" (S n)),
          Throw stack_overflow).
Proof.
  revert from. induction n as [|n IH]; intros from.
  - reflexivity.
  - rewrite (readConfigFile_extends (Sample.on Sample.self_extending) n
               "/p" "tsconfig.json" from Sample.self_cfg "./tsconfig.json")
      by reflexivity.
    change (extPath (Sample.on Sample.self_extending) "/p" "./tsconfig.json")
      with "/p".
    change (extFile "./tsconfig.json") with "tsconfig.json".
    rewrite IH. unfold diagnostics.
    change (repeat "/p/tsconfig.json" (S (S n)))
      with ("/p/tsconfig.json" :: repeat "/p/tsconfig.json" (S n)).
    rewrite (repeat_cons (S n) "/p/tsconfig.json"), map_app. reflexivity.
Qed.

(** On a configuration that extends itself the resolution does not
    complete, and the error it throws is none that reading or parsing a
    file raises: every file of the disk that is read parses. *)
Lemma self_extending_overflows :
  readConfigFile (Sample.on Sample.self_extending) 2 "/p" "tsconfig.json" None
  = Some ([Error "FATAL: Error parsing /p/tsconfig.json:: Maximum call stack size exceeded";
           Error "FATAL: Error parsing /p/tsconfig.json:: Maximum call stack size exceeded";
           Error "FATAL: Error parsing /p/tsconfig.json:: Maximum call stack size exceeded"],
          Throw stack_overflow)
  /\ ~ (exists configFile,
          load (Sample.on Sample.self_extending) configFile
          = Throw stack_overflow).
Proof.
  split; [reflexivity|].
  intros [configFile Hload]. unfold load in Hload. simpl in Hload.
  unfold Posix.read_from, Posix.parse_with in Hload. simpl in Hload.
  destruct (String.eqb configFile "/p"); [discriminate|].
  destruct (String.eqb configFile "/p/tsconfig.json").
  - simpl in Hload. discriminate.
  - destruct (String.eqb configFile "/m"); discriminate.
Qed.

(** ** The location of the parent *)

(** C6, with the empty reference: a file whose [extends] is the empty
    string is resolved as a file without [extends], by its own values and
    without any further call. For every other reference the parent is looked
    up from the starting directory of the current call when the reference
    starts with a dot and from [MOD_PATH] otherwise: the segments before the
    last one are joined to that root, the last segment is the file name, and
    the current file is the origin of the call, which returns and decides
    the result of the current call; a missing parent is warned about under
    that location and that origin. *)
Theorem extends_location (H : Host) (fuel : nat) (cp ts : string)
    (from : option string) (text : string) (cfg : JsonConfig) (ref : string) :
  existsSync H (path_join H [cp; ts]) = true ->
  readFileSync H (path_join H [cp; ts]) = Normal text ->
  JSON5_parse H text = Normal cfg ->
  extends cfg = Some ref ->
  (ref = ""
   /\ readConfigFile H (S fuel) cp ts from
      = Some ([], Normal {| cfg_paths := own_paths cfg;
                            cfg_url := own_url H (path_join H [cp; ts]) cfg |}))
  \/ (ref <> ""
      /\ exists file,
           JS.at_m1 (JS.split_sep ref) = Some file
           /\ extFile ref = file
           /\ extPath H cp ref
              = path_join H ((if JS.startsWith_dot ref then cp else MOD_PATH H)
                             :: removelast (JS.split_sep ref))
           /\ (exists log c,
                 readConfigFile H fuel (extPath H cp ref) file
                   (Some (path_join H [cp; ts]))
                 = Some (log, c)
                 /\ readConfigFile H (S fuel) cp ts from
                    = match c with
                      | Normal extConfig =>
                          Some (log,
                                Normal (merge_parent H (path_join H [cp; ts])
                                          cfg extConfig))
                      | Throw e =>
                          Some (log ++ [Error (parse_diagnostic
                                                 (path_join H [cp; ts]) e)],
                                Throw e)
                      end)
           /\ (existsSync H (path_join H [extPath H cp ref; file]) = false ->
               readConfigFile H (S fuel) cp ts from
               = Some ([Warn ("No " +++ path_join H [extPath H cp ref; file]
                                +++ " (extended from "
                                +++ path_join H [cp; ts]
                                +++ ") found, assuming defaults")],
                       Normal (merge_parent H (path_join H [cp; ts]) cfg
                                 {| cfg_paths := []; cfg_url := None |})))).
Proof.
  intros He Hread Hparse Hext.
  pose proof (load_parsed H _ _ _ Hread Hparse) as Hl.
  destruct ref as [|c r].
  - left. split; [reflexivity|].
    apply (readConfigFile_leaf H (S fuel) cp ts from cfg He Hl).
    unfold parentConfig. now rewrite Hext.
  - right. split; [discriminate|].
    assert (Hp : parentConfig cfg = Some (String c r))
      by (apply parentConfig_truthy; [exact Hext | reflexivity]).
    destruct (extSubs_last (String c r)) as [file [Hat Hfile]].
    exists file. split; [exact Hat|]. split; [exact Hfile|].
    split; [reflexivity|].
    pose proof (readConfigFile_extends H fuel cp ts from cfg _ He Hl Hp) as Heq.
    rewrite Hfile in Heq. split.
    + destruct (readConfigFile_returns H fuel (extPath H cp (String c r)) file
                  (Some (path_join H [cp; ts]))) as [log [res Hrec]].
      exists log, res. split; [exact Hrec|].
      rewrite Heq, Hrec. now destruct res.
    + intros Hmiss. rewrite Heq.
      rewrite (readConfigFile_missing H fuel _ _ _ Hmiss).
      unfold missing_warning, JS.truthy_opt, JS.show.
      rewrite (path_join_truthy H).
      do 3 f_equal. now rewrite !append_assoc.
Qed.

Lemma extends_location_witness :
  readConfigFile (Sample.on Sample.empty_extends) 1 "/p" "tsconfig.json" None
  = Some ([], Normal {| cfg_paths := [("@x", ["./y"])]; cfg_url := None |})
  /\ readConfigFile (Sample.on Sample.missing_parent) 1 "/p" "tsconfig.json" None
     = Some ([Warn "No /m/@tsconfig/strictest/tsconfig.json (extended from /p/tsconfig.json) found, assuming defaults"],
             Normal {| cfg_paths := []; cfg_url := None |}).
Proof.
  split.
  - destruct (extends_location (Sample.on Sample.empty_extends) 0 "/p"
                "tsconfig.json" None Sample.empty_extends_text
                Sample.empty_extends_cfg ""
                eq_refl eq_refl eq_refl eq_refl) as [[_ Hres]|[Hne _]].
    + exact Hres.
    + now contradiction Hne.
  - destruct (extends_location (Sample.on Sample.missing_parent) 0 "/p"
                "tsconfig.json" None Sample.missing_parent_text
                Sample.missing_parent_cfg "@tsconfig/strictest/tsconfig.json"
                eq_refl eq_refl eq_refl eq_refl)
      as [[Hempty _]|[_ [file [Hat [_ [_ [_ Hwarn]]]]]]].
    + discriminate Hempty.
    + injection Hat as <-. exact (Hwarn eq_refl).
Defined.

(** ** No marker in a filter *)

(** C10: in every rule [extractAliases] returns, no segment of the filter
    is the wildcard marker. *)
Theorem filters_have_no_star (H : Host) (fuel : nat) (log : list log_entry)
    (aliases : list Alias) :
  extractAliases H fuel = Some (log, Normal aliases) ->
  forall a, In a aliases -> ~ In "*" (filter a).
Proof.
  unfold extractAliases.
  destruct (readConfigFile H fuel _ _ _) as [[l [cfg|e]]|]; simpl;
    try discriminate.
  destruct (map_completion _ _) as [rules|e] eqn:Hmap; [|discriminate].
  intros [= _ <-] a Hin.
  destruct (map_completion_normal _ _ _ Hmap a Hin) as [[key targets] [_ Ha]].
  exact (alias_filter_no_star _ key targets a Ha).
Qed.

Lemma filters_have_no_star_witness :
  ~ In "*" (filter {| filter := ["@app"]; isWildcard := true;
                      path := Some "./src/*";
                      url := {| href := "file:///p/base/lib/" |} |}).
Proof.
  apply (filters_have_no_star (Sample.on Sample.two_level) 1 [] _ eq_refl).
  left. reflexivity.
Defined.

(** ** The whole compilation *)

(** Once the chain is resolved, [extractAliases] throws exactly when one key
    of the merged paths is invalid. *)
Lemma extractAliases_refuses_iff (H : Host) (fuel : nat) log cfg :
  readConfigFile H fuel (CWD_PATH H) "tsconfig.json" None
  = Some (log, Normal cfg) ->
  (exists e, extractAliases H fuel = Some (log, Throw e))
  <-> exists key targets, In (key, targets) (cfg_paths cfg) /\ invalid_key key.
Proof.
  intros Hres. rewrite (extractAliases_compiles H fuel log cfg Hres).
  set (u := match cfg_url cfg with Some u => u | None => CWD_URL H end).
  split.
  - intros [e [= He]].
    destruct (proj1 (map_completion_throw (alias_of_entry u) _)
                (ex_intro _ e He)) as [[key targets] [Hin Hthrow]].
    exists key, targets. split.
    + eapply Permutation_in; [apply entries_perm | exact Hin].
    + now apply (alias_throws_iff_invalid u key targets).
  - intros [key [targets [Hin Hinv]]].
    destruct (proj2 (map_completion_throw (alias_of_entry u)
                       (entries (cfg_paths cfg)))) as [e He].
    + exists (key, targets). split.
      * eapply Permutation_in; [apply Permutation_sym, entries_perm | exact Hin].
      * now apply (alias_throws_iff_invalid u key targets).
    + exists e. now rewrite He.
Qed.

Example invalid_key_aborts_compilation :
  exists log e,
    extractAliases
      (Posix.host "/p" "/m"
         {| Posix.nodes := [("/p/tsconfig.json", Posix.File "{ compilerOptions: { paths: { '@ok': ['./ok'], '@a/*/*': ['./src/*'] } } }")];
            Posix.documents :=
              [("{ compilerOptions: { paths: { '@ok': ['./ok'], '@a/*/*': ['./src/*'] } } }",
                {| extends := None;
                   compilerOptions :=
                     Some {| baseUrl := None;
                             paths := Some [("@ok", ["./ok"]);
                                            ("@a/*/*", ["./src/*"])] |} |})] |})
      0
    = Some (log, Throw e)
    /\ message e = wildcard_message "@a/*/*" (Some "./src/*").
Proof. do 2 eexists. split; reflexivity. Qed.

(** * Further properties *)

(** ** Splitting a key *)

Lemma concat_slash_cons (x : string) (l : list string) :
  l <> [] -> String.concat "/" (x :: l) = x +++ "/" +++ String.concat "/" l.
Proof. destruct l; [congruence | reflexivity]. Qed.

(** Joining the segments of a key with slashes gives the key back, its
    backslashes written as slashes. *)
Lemma split_sep_join (s : string) :
  String.concat "/" (JS.split_sep s) = slashes s.
Proof.
  induction s as [|c r IH]; simpl; [reflexivity|].
  destruct (JS.is_sep c).
  - rewrite concat_slash_cons by apply split_sep_nonempty.
    simpl. now rewrite IH.
  - pose proof (split_sep_nonempty r) as Hne.
    destruct (JS.split_sep r) as [|h t]; [congruence|].
    rewrite <- IH. destruct t; reflexivity.
Qed.

Lemma split_sep_sep_free (s : string) :
  forall seg, In seg (JS.split_sep s) -> sep_free seg = true.
Proof.
  induction s as [|c r IH]; simpl; intros seg Hin.
  - destruct Hin as [<-|[]]. reflexivity.
  - destruct (JS.is_sep c) eqn:Hc.
    + destruct Hin as [<-|Hin]; [reflexivity | now apply IH].
    + destruct (JS.split_sep r) as [|h t]; simpl in Hin.
      * destruct Hin as [<-|[]]. simpl. now rewrite Hc.
      * destruct Hin as [<-|Hin].
        -- simpl. rewrite Hc. simpl. apply IH. now left.
        -- apply IH. now right.
Qed.

Lemma is_star_true (x : string) : JS.is_star (Some x) = true -> x = "*".
Proof. simpl. intros Hx. now apply String.eqb_eq. Qed.

(** The segments of a rule are those of its key. *)
Lemma alias_key_segments (u : URL) (key : string) (targets : list string)
    (a : Alias) :
  alias_of_entry u (key, targets) = Normal a ->
  key_segments a = JS.split_sep key.
Proof.
  rewrite alias_of_entry_eq. destruct (rejects key); [discriminate|].
  intros [= <-]. unfold key_segments. simpl.
  destruct (snoc_view (JS.split_sep key) (split_sep_nonempty key))
    as [x [Hat Heq]].
  rewrite Hat. destruct (JS.is_star (Some x)) eqn:Hx.
  - apply is_star_true in Hx. subst x. now rewrite <- Heq.
  - now rewrite app_nil_r.
Qed.

Lemma map_completion_pointwise {A B} (f : A -> completion B) (l : list A) :
  forall ys, map_completion f l = Normal ys ->
  Forall2 (fun x y => f x = Normal y) l ys.
Proof.
  induction l as [|x l IH]; simpl; intros ys Hmap.
  - injection Hmap as <-. constructor.
  - destruct (f x) as [y|e] eqn:Hfx; [|discriminate].
    destruct (map_completion f l) as [ys0|e]; [|discriminate].
    injection Hmap as <-. constructor; [exact Hfx | now apply IH].
Qed.

(** The first callback that throws ends the traversal with its error. *)
Lemma map_completion_first_throw {A B} (f : A -> completion B) (l : list A) :
  forall e, map_completion f l = Throw e ->
  exists before x after,
    l = before ++ x :: after
    /\ (forall y, In y before -> exists b, f y = Normal b)
    /\ f x = Throw e.
Proof.
  induction l as [|x l IH]; simpl; intros e Hmap; [discriminate|].
  destruct (f x) as [y|e0] eqn:Hfx.
  - destruct (map_completion f l) as [ys|e1]; [discriminate|].
    injection Hmap as <-.
    destruct (IH e1 eq_refl) as [before [x0 [after [Hl [Hok Hthrow]]]]].
    exists (x :: before), x0, after. split; [now rewrite Hl|].
    split; [|exact Hthrow].
    intros y0 [<-|Hin]; [eauto | now apply Hok].
  - injection Hmap as <-. exists [], x, l.
    split; [reflexivity|]. split; [intros y []| exact Hfx].
Qed.

(** What [extractAliases] returns, from what [readConfigFile] returned. *)
Lemma extractAliases_inv (H : Host) (fuel : nat) log c :
  extractAliases H fuel = Some (log, c) ->
  (exists e, readConfigFile H fuel (CWD_PATH H) "tsconfig.json" None
             = Some (log, Throw e) /\ c = Throw e)
  \/ (exists cfg,
        readConfigFile H fuel (CWD_PATH H) "tsconfig.json" None
        = Some (log, Normal cfg)
        /\ c = map_completion
                 (alias_of_entry
                    (match cfg_url cfg with Some u => u | None => CWD_URL H end))
                 (entries (cfg_paths cfg))).
Proof.
  unfold extractAliases.
  destruct (readConfigFile H fuel _ _ _) as [[l [cfg|e]]|]; simpl;
    try discriminate.
  - rewrite app_nil_r. intros [= <- <-]. right. eauto.
  - intros [= <- <-]. left. eauto.
Qed.

(** ** The rules of one compilation *)

Lemma rules_recover_keys (u : URL) (es : list (string * list string)) :
  forall rules,
  map_completion (alias_of_entry u) es = Normal rules ->
  map key_segments rules = map JS.split_sep (keys es)
  /\ map (fun a => String.concat "/" (key_segments a)) rules
     = map slashes (keys es)
  /\ map path rules = map (fun e => hd_error (snd e)) es.
Proof.
  intros rules Hmap. apply map_completion_pointwise in Hmap. unfold keys.
  induction Hmap as [|[key targets] a es rules Ha _ IH]; simpl.
  - repeat split.
  - destruct IH as [IH1 [IH2 IH3]].
    pose proof (alias_key_segments _ _ _ _ Ha) as Hseg.
    rewrite IH1, IH2, IH3, Hseg, split_sep_join.
    repeat split.
    rewrite alias_of_entry_eq in Ha.
    destruct (rejects key); [discriminate|]. now injection Ha as <-.
Qed.

(** X1: when [extractAliases] succeeds, its rules stand one for one, and in
    the order of [Object.entries], for the keys of the merged paths: each
    rule's filter, with the marker put back on a wildcard rule, is the
    segment list of its key, and joined with slashes it is the key, its
    backslashes written as slashes. *)
Theorem aliases_recover_keys (H : Host) (fuel : nat) (log : list log_entry)
    (aliases : list Alias) :
  extractAliases H fuel = Some (log, Normal aliases) ->
  exists merged,
    readConfigFile H fuel (CWD_PATH H) "tsconfig.json" None
    = Some (log, Normal merged)
    /\ map key_segments aliases
       = map JS.split_sep (keys (entries (cfg_paths merged)))
    /\ map (fun a => String.concat "/" (key_segments a)) aliases
       = map slashes (keys (entries (cfg_paths merged)))
    /\ map path aliases
       = map (fun e => hd_error (snd e)) (entries (cfg_paths merged)).
Proof.
  intros Hres.
  destruct (extractAliases_inv H fuel log _ Hres)
    as [[e [_ Hc]]|[merged [Hread Hc]]]; [discriminate|].
  exists merged. split; [exact Hread|].
  symmetry in Hc. now apply (rules_recover_keys _ _ _ Hc).
Qed.

Lemma aliases_recover_keys_witness :
  map (fun a => String.concat "/" (key_segments a))
    [{| filter := ["@polkadot"; "api"]; isWildcard := false;
        path := Some "packages/api/src"; url := {| href := "file:///p/" |} |};
     {| filter := ["@polkadot"; "api"]; isWildcard := true;
        path := Some "packages/api/src/*"; url := {| href := "file:///p/" |} |}]
  = ["@polkadot/api"; "@polkadot/api/*"].
Proof.
  destruct (aliases_recover_keys (Installed.on Installed.project) 2 [] _ eq_refl)
    as [merged [Hread [_ [Hjoin _]]]].
  injection Hread as <-. exact Hjoin.
Defined.

(** X2: no segment of a filter that [extractAliases] returns contains a
    slash or a backslash. *)
Theorem filter_segments_have_no_separator (H : Host) (fuel : nat)
    (log : list log_entry) (aliases : list Alias) :
  extractAliases H fuel = Some (log, Normal aliases) ->
  forall a seg, In a aliases -> In seg (filter a) -> sep_free seg = true.
Proof.
  intros Hres a seg Ha Hseg.
  destruct (extractAliases_inv H fuel log _ Hres)
    as [[e [_ Hc]]|[merged [_ Hc]]]; [discriminate|].
  symmetry in Hc.
  destruct (map_completion_normal _ _ _ Hc a Ha) as [[key targets] [_ Hak]].
  apply (split_sep_sep_free key).
  rewrite <- (alias_key_segments _ _ _ _ Hak). unfold key_segments.
  apply in_or_app. now left.
Qed.

Lemma filter_segments_have_no_separator_witness : sep_free "@polkadot" = true.
Proof.
  apply (filter_segments_have_no_separator (Installed.on Installed.project) 2
           [] _ eq_refl
           {| filter := ["@polkadot"; "api"]; isWildcard := false;
              path := Some "packages/api/src";
              url := {| href := "file:///p/" |} |}).
  - left. reflexivity.
  - left. reflexivity.
Defined.

(** X3: a key none of whose segments is the marker always compiles, to a
    rule that is not a wildcard rule and whose filter is the whole segment
    list; a [*] inside a longer segment is an ordinary character. *)
Theorem key_without_marker_compiles (u : URL) (key : string)
    (targets : list string) :
  ~ In "*" (JS.split_sep key) ->
  alias_of_entry u (key, targets)
  = Normal {| filter := JS.split_sep key; isWildcard := false;
              path := hd_error targets; url := u |}.
Proof.
  intros Hno.
  destruct (snoc_view (JS.split_sep key) (split_sep_nonempty key))
    as [x [Hat Heq]].
  assert (Hx : JS.is_star (Some x) = false).
  { destruct (JS.is_star (Some x)) eqn:Hx; [|reflexivity].
    apply is_star_true in Hx. subst x. exfalso. apply Hno.
    rewrite Heq. apply in_or_app. right. now left. }
  assert (Hrej : rejects key = false).
  { destruct (rejects key) eqn:Hrej; [|reflexivity].
    apply rejects_iff_front in Hrej. exfalso. apply Hno.
    rewrite Heq. apply in_or_app. now left. }
  rewrite alias_of_entry_eq, Hrej. simpl. now rewrite Hat, Hx.
Qed.

Lemma key_without_marker_compiles_witness :
  alias_of_entry {| href := "file:///p/" |} ("@types/*.d.ts", ["./types/*"])
  = Normal {| filter := ["@types"; "*.d.ts"]; isWildcard := false;
              path := Some "./types/*"; url := {| href := "file:///p/" |} |}.
Proof.
  apply (key_without_marker_compiles {| href := "file:///p/" |}
           "@types/*.d.ts" ["./types/*"]).
  simpl. intuition discriminate.
Defined.

(** X4: an entry whose candidate list is empty is handled like any other:
    a valid key gives a rule whose [path] is [undefined], an invalid key is
    refused with a message that prints [undefined] for the target. *)
Theorem empty_candidates_give_undefined_path (u : URL) (key : string) :
  (~ invalid_key key
   /\ exists a, alias_of_entry u (key, []) = Normal a /\ path a = None)
  \/ (invalid_key key
      /\ alias_of_entry u (key, [])
         = Throw {| message :=
                      "FATAL: Wildcards in tsconfig.json path entries are only supported in the last position. Invalid "
                        +++ key +++ ": undefined mapping" |}).
Proof.
  rewrite alias_of_entry_eq. destruct (rejects key) eqn:Hrej.
  - right. split; [now apply rejects_iff_invalid | reflexivity].
  - left. split.
    + intros Hinv. apply rejects_iff_invalid in Hinv. congruence.
    + eexists. split; reflexivity.
Qed.

(** X5: when the chain resolves and [extractAliases] throws, the error names
    the first invalid key in the order of [Object.entries]; the keys before
    it are valid and the ones after it are not looked at. *)
Theorem first_invalid_key_is_reported (H : Host) (fuel : nat)
    (log : list log_entry) (merged : PartialConfig) (e : JsError) :
  readConfigFile H fuel (CWD_PATH H) "tsconfig.json" None
  = Some (log, Normal merged) ->
  extractAliases H fuel = Some (log, Throw e) ->
  exists before key targets after,
    entries (cfg_paths merged) = before ++ (key, targets) :: after
    /\ (forall k t, In (k, t) before -> ~ invalid_key k)
    /\ invalid_key key
    /\ e = {| message := wildcard_message key (hd_error targets) |}.
Proof.
  intros Hread Hres.
  rewrite (extractAliases_compiles H fuel log merged Hread) in Hres.
  injection Hres as Hmap.
  destruct (map_completion_first_throw _ _ _ Hmap)
    as [before [[key targets] [after [Hsplit [Hok Hthrow]]]]].
  exists before, key, targets, after. split; [exact Hsplit|].
  split; [|split].
  - intros k t Hin Hinv. destruct (Hok _ Hin) as [b Hb].
    apply (alias_throws_iff_invalid
             (match cfg_url merged with Some u => u | None => CWD_URL H end)
             k t) in Hinv.
    destruct Hinv as [e' He']. congruence.
  - apply (alias_throws_iff_invalid
             (match cfg_url merged with Some u => u | None => CWD_URL H end)
             key targets).
    eauto.
  - rewrite alias_of_entry_eq in Hthrow.
    destruct (rejects key); [|discriminate]. now injection Hthrow as <-.
Qed.

Lemma first_invalid_key_is_reported_witness :
  exists before key targets after,
    entries (cfg_paths {| cfg_paths := [("@ok", ["./ok"]);
                                        ("@a/*/*", ["./src/*"]); ("*/x", [])];
                          cfg_url := None |})
    = before ++ (key, targets) :: after
    /\ invalid_key key
    /\ {| message := wildcard_message "@a/*/*" (Some "./src/*") |}
       = {| message := wildcard_message key (hd_error targets) |}.
Proof.
  destruct (first_invalid_key_is_reported (Installed.on Installed.bad_keys) 0
              [] _ {| message := wildcard_message "@a/*/*" (Some "./src/*") |}
              eq_refl eq_refl)
    as [before [key [targets [after [Hsplit [_ [Hinv He]]]]]]].
  exists before, key, targets, after. auto.
Defined.

(** ** The console *)

Lemma at_m1_cons {A : Type} (x y : A) (l : list A) :
  JS.at_m1 l = Some y -> JS.at_m1 (x :: l) = Some y.
Proof. destruct l; [discriminate | auto]. Qed.

Lemma at_m1_in {A : Type} (y : A) (l : list A) : JS.at_m1 l = Some y -> In y l.
Proof.
  induction l as [|x l IH]; [discriminate|].
  destruct l as [|x' l]; [intros [= <-]; now left|].
  intros Hat. right. now apply IH.
Qed.

(** Every entry of a chain is an existing file with what loading it gives. *)
Lemma chain_entries (H : Host) (fuel : nat) :
  forall cp ts f c,
  In (f, c) (chain H fuel cp ts) ->
  existsSync H f = true /\ c = load H f.
Proof.
  induction fuel as [|fuel IH]; intros cp ts f c; rewrite chain_eq;
    destruct (existsSync H (path_join H [cp; ts])) eqn:He; simpl;
    try contradiction;
    (intros [[= <- <-]|Hin]; [now split|]);
    destruct (load H (path_join H [cp; ts])) as [cfg|e]; try contradiction;
    destruct (parentConfig cfg); try contradiction.
  now apply (IH _ _ _ _ Hin).
Qed.

Lemma readConfigFile_throw_shape (H : Host) (fuel : nat) :
  forall cp ts from log e,
  readConfigFile H fuel cp ts from = Some (log, Throw e) ->
  log = diagnostics e (rev (map fst (chain H fuel cp ts)))
  /\ ((exists f, JS.at_m1 (chain H fuel cp ts) = Some (f, Throw e))
      \/ (e = stack_overflow /\ chain_within H fuel cp ts = false)).
Proof.
  induction fuel as [|fuel IH]; intros cp ts from log e;
    rewrite readConfigFile_eq, chain_eq, chain_within_eq; unfold next_hop;
    destruct (existsSync H (path_join H [cp; ts])); simpl; try discriminate;
    destruct (load H (path_join H [cp; ts])) as [cfg|e0];
    try (intros [= <- <-]; split; [reflexivity | left; eexists; reflexivity]);
    unfold after_load;
    destruct (parentConfig cfg) as [parent|]; simpl; try discriminate.
  - intros [= <- <-]. split; [reflexivity | right; split; reflexivity].
  - destruct (readConfigFile H fuel _ _ _) as [[l [ext|e1]]|] eqn:Hrec; simpl;
      try discriminate.
    intros [= <- <-].
    destruct (IH _ _ _ _ _ Hrec) as [Hlog Hkind].
    split.
    + unfold diagnostics in *. now rewrite map_app, <- Hlog.
    + destruct Hkind as [[f Hat]|[He Hin]].
      * left. exists f. now apply at_m1_cons.
      * right. now split.
Qed.

(** X6: when [readConfigFile] throws, the console received exactly one
    FATAL diagnostic per file of the chain, from the last file reached back
    to the starting file, each with the message of the error thrown; that
    error is the one reading or parsing the last file raised, or, when every
    file reached loads and the chain does not end within the call stack,
    the engine's error for the full stack. *)
Theorem throw_log_names_whole_chain (H : Host) (fuel : nat) (cp ts : string)
    (from : option string) (log : list log_entry) (e : JsError) :
  readConfigFile H fuel cp ts from = Some (log, Throw e) ->
  log = diagnostics e (rev (map fst (chain H fuel cp ts)))
  /\ ((exists failing,
         JS.at_m1 (map fst (chain H fuel cp ts)) = Some failing
         /\ existsSync H failing = true
         /\ load H failing = Throw e)
      \/ (e = stack_overflow
          /\ chain_within H fuel cp ts = false
          /\ length (chain H fuel cp ts) = S fuel
          /\ forall f c, In (f, c) (chain H fuel cp ts) ->
               exists cfg, c = Normal cfg)).
Proof.
  intros Hres.
  destruct (readConfigFile_throw_shape H fuel _ _ _ _ _ Hres)
    as [Hlog [[f Hat]|[He Hin]]].
  - split; [exact Hlog|]. left.
    destruct (chain_entries H fuel cp ts f (Throw e) (at_m1_in _ _ Hat))
      as [He Hload].
    exists f. repeat split; auto.
    clear - Hat. induction (chain H fuel cp ts) as [|x l IH]; [discriminate|].
    destruct l as [|x' l]; [now injection Hat as ->|].
    apply at_m1_cons. now apply IH.
  - split; [exact Hlog|]. right.
    destruct (overflows_beyond H fuel cp ts from Hin) as [_ [Hlen Hall]].
    auto.
Qed.

Lemma throw_log_names_whole_chain_witness :
  [Error "FATAL: Error parsing /p/base/tsconfig.base.json:: JSON5: invalid end of input at 1:2";
   Error "FATAL: Error parsing /p/tsconfig.json:: JSON5: invalid end of input at 1:2"]
  = diagnostics {| message := "JSON5: invalid end of input at 1:2" |}
      (rev (map fst (chain (Sample.on Sample.broken_base) 1
                       "/p" "tsconfig.json"))).
Proof.
  destruct (throw_log_names_whole_chain (Sample.on Sample.broken_base) 1
              "/p" "tsconfig.json" None _ _ eq_refl)
    as [Hlog _].
  exact Hlog.
Defined.

(** X7: when [readConfigFile] completes normally it has logged nothing, or a
    single warning for a file that does not exist; it logs no diagnostic. *)
Theorem normal_log_at_most_one_warning (H : Host) (fuel : nat) :
  forall (cp ts : string) (from : option string) (log : list log_entry)
         (merged : PartialConfig),
  readConfigFile H fuel cp ts from = Some (log, Normal merged) ->
  log = []
  \/ exists missing requester,
       log = [Warn (missing_warning missing requester)]
       /\ existsSync H missing = false.
Proof.
  induction fuel as [|fuel IH]; intros cp ts from log merged;
    rewrite readConfigFile_eq;
    destruct (existsSync H (path_join H [cp; ts])) eqn:He; simpl;
    try (intros [= <- _]; right; eauto);
    destruct (load H (path_join H [cp; ts])) as [cfg|e]; try discriminate;
    unfold after_load;
    destruct (parentConfig cfg) as [parent|]; simpl; try discriminate;
    try (intros [= <- _]; now left).
  destruct (readConfigFile H fuel _ _ _) as [[l [ext|e]]|] eqn:Hrec; simpl;
    try discriminate.
  rewrite app_nil_r. intros [= <- _]. now apply (IH _ _ _ _ _ Hrec).
Qed.

Lemma normal_log_at_most_one_warning_witness :
  [Warn "No /m/@tsconfig/strictest/tsconfig.json (extended from /p/tsconfig.json) found, assuming defaults"]
  = []
  \/ exists missing requester,
       [Warn "No /m/@tsconfig/strictest/tsconfig.json (extended from /p/tsconfig.json) found, assuming defaults"]
       = [Warn (missing_warning missing requester)]
       /\ existsSync (Sample.on Sample.missing_parent) missing = false.
Proof.
  exact (normal_log_at_most_one_warning (Sample.on Sample.missing_parent) 1
           "/p" "tsconfig.json" None _ _ eq_refl).
Defined.

(** ** The depth of the call stack *)

(** X8: when the chain of a starting point ends within [n] hops, the result
    of [readConfigFile] is the same for every call stack with room for at
    least [n] nested calls; and the call completes normally only when the
    chain ends within the room the call stack has. *)
Theorem ending_chain_ignores_stack_depth (H : Host) (n : nat) (cp ts : string)
    (from : option string) :
  (chain_within H n cp ts = true ->
   forall m, n <= m ->
   readConfigFile H m cp ts from = readConfigFile H n cp ts from)
  /\ (forall log merged,
        readConfigFile H n cp ts from = Some (log, Normal merged) ->
        chain_within H n cp ts = true).
Proof.
  split.
  - intros Hin m Hle. now apply readConfigFile_fuel_mono.
  - intros log merged Hres.
    destruct (chain_within H n cp ts) eqn:Hin; [reflexivity|].
    destruct (overflows_beyond H n cp ts from Hin) as [Hthrow _].
    rewrite Hthrow in Hres. discriminate.
Qed.

Lemma ending_chain_ignores_stack_depth_witness :
  readConfigFile (Installed.on Installed.project) 100 "/p" "tsconfig.json" None
  = readConfigFile (Installed.on Installed.project) 2 "/p" "tsconfig.json" None.
Proof.
  apply (proj1 (ending_chain_ignores_stack_depth (Installed.on Installed.project)
                  2 "/p" "tsconfig.json" None)).
  - reflexivity.
  - lia.
Defined.

(** X9: the origin [fromFile] is used for the text of the warning only: the
    completion of a call does not depend on it, and when the file exists
    nothing of the result does. *)
Theorem origin_only_affects_warning (H : Host) (fuel : nat) (cp ts : string)
    (from from' : option string) :
  option_map snd (readConfigFile H fuel cp ts from)
  = option_map snd (readConfigFile H fuel cp ts from')
  /\ (existsSync H (path_join H [cp; ts]) = true ->
      readConfigFile H fuel cp ts from = readConfigFile H fuel cp ts from').
Proof.
  rewrite !readConfigFile_eq.
  destruct (existsSync H (path_join H [cp; ts])); simpl.
  - split; reflexivity.
  - split; [reflexivity | discriminate].
Qed.

Lemma origin_only_affects_warning_witness :
  readConfigFile (Installed.on Installed.project) 2 "/p" "tsconfig.json" None
  = readConfigFile (Installed.on Installed.project) 2 "/p" "tsconfig.json"
      (Some "/elsewhere/tsconfig.json").
Proof.
  exact (proj2 (origin_only_affects_warning (Installed.on Installed.project) 2
                  "/p" "tsconfig.json" None (Some "/elsewhere/tsconfig.json"))
           eq_refl).
Defined.

(** ** The url of the rules *)

Lemma merged_url_is_nearest (H : Host) (fuel : nat) :
  forall cp ts from log merged,
  readConfigFile H fuel cp ts from = Some (log, Normal merged) ->
  cfg_url merged = nearest_baseUrl H own_baseUrl (chain H fuel cp ts).
Proof.
  induction fuel as [|fuel IH]; intros cp ts from log merged;
    rewrite readConfigFile_eq, chain_eq;
    destruct (existsSync H (path_join H [cp; ts])); simpl;
    try (intros [= <- <-]; reflexivity);
    destruct (load H (path_join H [cp; ts])) as [cfg|e]; try discriminate;
    unfold after_load, own_url;
    destruct (parentConfig cfg) as [parent|]; simpl; try discriminate;
    try (intros [= <- <-]; simpl; now destruct (own_baseUrl cfg)).
  destruct (readConfigFile H fuel _ _ _) as [[l [ext|e]]|] eqn:Hrec; simpl;
    try discriminate.
  intros [= <- <-]. simpl. unfold own_url.
  destruct (own_baseUrl cfg); simpl; [reflexivity|].
  now apply (IH _ _ _ _ _ Hrec).
Qed.

(** X10: all rules of one compilation carry the same url: the resolved
    [baseUrl] of the nearest file of the chain that sets a non-empty one,
    and [CWD_URL] when no file of the chain does. *)
Theorem aliases_share_base_url (H : Host) (fuel : nat) (log : list log_entry)
    (aliases : list Alias) :
  extractAliases H fuel = Some (log, Normal aliases) ->
  forall a, In a aliases ->
  url a = match nearest_baseUrl H own_baseUrl
                  (chain H fuel (CWD_PATH H) "tsconfig.json") with
          | Some u => u
          | None => CWD_URL H
          end.
Proof.
  intros Hres a Ha.
  destruct (extractAliases_inv H fuel log _ Hres)
    as [[e [_ Hc]]|[merged [Hread Hc]]]; [discriminate|].
  symmetry in Hc.
  destruct (map_completion_normal _ _ _ Hc a Ha) as [[key targets] [_ Hak]].
  rewrite <- (merged_url_is_nearest H fuel _ _ _ _ _ Hread).
  rewrite alias_of_entry_eq in Hak.
  destruct (rejects key); [discriminate|]. now injection Hak as <-.
Qed.

Lemma aliases_share_base_url_witness :
  url {| filter := ["@ui"]; isWildcard := false; path := Some "./ui/index.ts";
         url := {| href := "file:///p/base/lib/" |} |}
  = {| href := "file:///p/base/lib/" |}.
Proof.
  apply (aliases_share_base_url (Sample.on Sample.two_level) 1 [] _ eq_refl).
  right. right. left. reflexivity.
Defined.

(** ** Without a configuration *)

(** X11: when the working directory has no [tsconfig.json],
    [extractAliases] returns the empty list, after the one warning for the
    missing file; it does not throw and needs no recursion. *)
Theorem extractAliases_without_config (H : Host) (fuel : nat) :
  existsSync H (path_join H [CWD_PATH H; "tsconfig.json"]) = false ->
  extractAliases H fuel
  = Some ([Warn ("No " +++ path_join H [CWD_PATH H; "tsconfig.json"]
                   +++ " found, assuming defaults")],
          Normal []).
Proof.
  intros Hmiss. unfold extractAliases.
  now rewrite (readConfigFile_missing H fuel _ _ None Hmiss).
Qed.

Lemma extractAliases_without_config_witness :
  extractAliases (Sample.on Sample.bare) 0
  = Some ([Warn "No /p/tsconfig.json found, assuming defaults"], Normal []).
Proof.
  exact (extractAliases_without_config (Sample.on Sample.bare) 0 eq_refl).
Defined.

(** ** The errors of a compilation *)

(** X12: [extractAliases] throws only three kinds of error: the one that
    reading or parsing an existing file of the chain raised, the engine's
    error for a full call stack when the chain does not end within it, or
    the wildcard error for an invalid key of the merged paths. *)
Theorem extractAliases_error_sources (H : Host) (fuel : nat)
    (log : list log_entry) (e : JsError) :
  extractAliases H fuel = Some (log, Throw e) ->
  (exists configFile,
     In configFile (map fst (chain H fuel (CWD_PATH H) "tsconfig.json"))
     /\ existsSync H configFile = true
     /\ load H configFile = Throw e)
  \/ (e = stack_overflow
      /\ chain_within H fuel (CWD_PATH H) "tsconfig.json" = false)
  \/ (exists merged key targets,
        readConfigFile H fuel (CWD_PATH H) "tsconfig.json" None
        = Some (log, Normal merged)
        /\ In (key, targets) (cfg_paths merged)
        /\ invalid_key key
        /\ e = {| message := wildcard_message key (hd_error targets) |}).
Proof.
  intros Hres.
  destruct (extractAliases_inv H fuel log _ Hres)
    as [[e' [Hread [= <-]]]|[merged [Hread Hc]]].
  - destruct (readConfigFile_throw_shape H fuel _ _ _ _ _ Hread)
      as [_ [[f Hat]|Hover]]; [left | right; left; exact Hover].
    apply at_m1_in in Hat.
    destruct (chain_entries H fuel _ _ _ _ Hat) as [He Hload].
    exists f. split; [|now split].
    apply (in_map fst) in Hat. exact Hat.
  - right. right. symmetry in Hc.
    destruct (map_completion_first_throw _ _ _ Hc)
      as [before [[key targets] [after [Hsplit [_ Hthrow]]]]].
    exists merged, key, targets. split; [exact Hread|].
    split; [|split].
    + eapply Permutation_in; [apply entries_perm|].
      rewrite Hsplit. apply in_or_app. right. now left.
    + apply (alias_throws_iff_invalid
               (match cfg_url merged with Some u => u | None => CWD_URL H end)
               key targets).
      eauto.
    + rewrite alias_of_entry_eq in Hthrow.
      destruct (rejects key); [|discriminate]. now injection Hthrow as <-.
Qed.

Lemma extractAliases_error_sources_witness :
  exists configFile,
    existsSync (Installed.on Installed.unreadable) configFile = true
    /\ load (Installed.on Installed.unreadable) configFile
       = Throw {| message := "EISDIR: illegal operation on a directory, read" |}.
Proof.
  destruct (extractAliases_error_sources (Installed.on Installed.unreadable) 0
              _ _ eq_refl)
    as [[configFile [_ [He Hload]]]
       |[[_ Hin]|[merged [key [targets [Hread _]]]]]].
  - exists configFile. split; assumption.
  - discriminate Hin.
  - discriminate Hread.
Defined.

(** ** Keys of a merged object *)

Lemma has_key_in (ks : list string) (k : string) :
  has_key ks k = true <-> In k ks.
Proof.
  unfold has_key. rewrite existsb_exists. split.
  - intros [x [Hin Heq]]. apply String.eqb_eq in Heq. now subst x.
  - intros Hin. exists k. split; [exact Hin | apply String.eqb_refl].
Qed.

Lemma keys_obj_set {V : Type} (o : obj V) (k : string) (v : V) :
  keys (obj_set o k v) = if has_key (keys o) k then keys o else keys o ++ [k].
Proof.
  induction o as [|[k0 v0] o IH]; simpl; [reflexivity|].
  destruct (String.eqb k k0); simpl; [reflexivity|].
  rewrite IH. unfold has_key. now destruct (existsb (String.eqb k) (keys o)).
Qed.

Lemma obj_set_wf {V : Type} (o : obj V) (k : string) (v : V) :
  obj_wf o -> obj_wf (obj_set o k v).
Proof.
  unfold obj_wf. intros Hwf. rewrite keys_obj_set.
  destruct (has_key (keys o) k) eqn:Hk; [exact Hwf|].
  eapply Permutation_NoDup; [apply Permutation_cons_append|].
  constructor; [|exact Hwf].
  intros Hin. apply has_key_in in Hin. congruence.
Qed.

Lemma assign_wf {V : Type} (l : list (string * V)) :
  forall o : obj V, obj_wf o -> obj_wf (assign o l).
Proof.
  unfold assign. induction l as [|[k v] l IH]; simpl; intros o Hwf;
    [exact Hwf|].
  apply IH. now apply obj_set_wf.
Qed.

(** A spread always builds an object with distinct keys. *)
Lemma spread2_wf {V : Type} (a b : obj V) : obj_wf (spread2 a b).
Proof. unfold spread2. do 2 apply assign_wf. constructor. Qed.

Lemma keys_assign {V : Type} (l : list (string * V)) :
  forall o : obj V,
  obj_wf l ->
  keys (assign o l)
  = keys o ++ List.filter (fun k => negb (has_key (keys o) k)) (keys l).
Proof.
  unfold assign, obj_wf.
  induction l as [|[k v] l IH]; simpl; intros o Hwf.
  - now rewrite app_nil_r.
  - inversion Hwf as [|? ? Hnotin Hwf']; subst.
    rewrite (IH _ Hwf'), keys_obj_set.
    destruct (has_key (keys o) k) eqn:Hk; simpl; [reflexivity|].
    rewrite <- app_assoc. simpl. do 2 f_equal.
    apply filter_ext_in. intros k' Hin. f_equal.
    unfold has_key. rewrite existsb_app. simpl.
    destruct (String.eqb_spec k' k) as [->|]; [contradiction|].
    now rewrite !orb_false_r.
Qed.

Lemma filter_keeps_all {A : Type} (f : A -> bool) (l : list A) :
  (forall x, f x = true) -> List.filter f l = l.
Proof.
  intros Hall. induction l as [|x l IH]; simpl; [reflexivity|].
  now rewrite Hall, IH.
Qed.

Lemma entries_no_index {V : Type} (o : obj V) :
  no_index_keys o -> entries o = o.
Proof.
  unfold no_index_keys, entries. intros Hno.
  assert (Hidx : List.filter is_index o = []).
  { induction o as [|e o IH]; simpl; [reflexivity|].
    rewrite (Hno e) by now left. apply IH. intros e' Hin. apply Hno. now right. }
  assert (Hrest : List.filter (fun e => negb (is_index e)) o = o).
  { induction o as [|e o IH]; simpl; [reflexivity|].
    rewrite (Hno e) by now left. simpl. f_equal.
    apply IH.
    - intros e' Hin. apply Hno. now right.
    - simpl in Hidx. rewrite (Hno e) in Hidx by now left. exact Hidx. }
  now rewrite Hidx, Hrest.
Qed.

Lemma no_index_by_key {V : Type} (o o' : obj V) :
  no_index_keys o ->
  (forall k, In k (keys o') -> In k (keys o)) ->
  no_index_keys o'.
Proof.
  unfold no_index_keys, keys. intros Hno Hsub [k v] Hin.
  assert (Hk : In k (map fst o)).
  { apply Hsub. apply (in_map fst) in Hin. exact Hin. }
  apply in_map_iff in Hk. destruct Hk as [[k0 v0] [Hfst Hin0]].
  simpl in Hfst. subst k0. specialize (Hno _ Hin0).
  unfold is_index in *. exact Hno.
Qed.

Lemma spread2_entries_keys {V : Type} (a b : obj V) :
  obj_wf a -> obj_wf b -> no_index_keys a -> no_index_keys b ->
  keys (entries (spread2 a b))
  = keys a ++ List.filter (fun k => negb (has_key (keys a) k)) (keys b).
Proof.
  intros Ha Hb Hna Hnb.
  assert (Hkeys : keys (spread2 a b)
                  = keys a ++ List.filter (fun k => negb (has_key (keys a) k))
                                (keys b)).
  { unfold spread2. rewrite (entries_no_index a Hna), (entries_no_index b Hnb).
    rewrite (keys_assign b) by exact Hb.
    rewrite (keys_assign a) by exact Ha.
    simpl. now rewrite filter_keeps_all by reflexivity. }
  rewrite entries_no_index; [exact Hkeys|].
  apply (no_index_by_key (a ++ b)).
  - intros e Hin. apply in_app_or in Hin. destruct Hin; auto.
  - intros k Hin. rewrite Hkeys in Hin. unfold keys. rewrite map_app.
    apply in_app_or in Hin. apply in_or_app.
    destruct Hin as [Hin|Hin]; [now left|].
    right. apply filter_In in Hin. tauto.
Qed.

(** ** Merging along a chain of any length *)

Lemma merged_paths_along_chain (H : Host) (fuel : nat) :
  forall cp ts from log merged,
  readConfigFile H fuel cp ts from = Some (log, Normal merged) ->
  (forall f cfg, In (f, Normal cfg) (chain H fuel cp ts) ->
                 obj_wf (own_paths cfg)) ->
  obj_wf (cfg_paths merged)
  /\ forall key,
       obj_get (cfg_paths merged) key
       = nearest_targets key (chain H fuel cp ts).
Proof.
  induction fuel as [|fuel IH]; intros cp ts from log merged;
    rewrite readConfigFile_eq, chain_eq;
    destruct (existsSync H (path_join H [cp; ts])); simpl;
    try (intros [= <- <-] _; split; [constructor | reflexivity]);
    destruct (load H (path_join H [cp; ts])) as [cfg|e]; try discriminate;
    unfold after_load;
    destruct (parentConfig cfg) as [parent|]; simpl; try discriminate;
    try (intros [= <- <-] Hwf; simpl; split;
         [apply (Hwf (path_join H [cp; ts]) cfg); now left
         | intros key; now destruct (obj_get (own_paths cfg) key)]).
  destruct (readConfigFile H fuel _ _ _) as [[l [ext|e]]|] eqn:Hrec; simpl;
    try discriminate.
  intros [= <- <-] Hwf. simpl.
  destruct (IH _ _ _ _ _ Hrec) as [Hext Hget].
  { intros f cfg' Hin. apply (Hwf f cfg'). now right. }
  split; [apply spread2_wf|].
  intros key. rewrite spread2_get.
  - destruct (obj_get (own_paths cfg) key); [reflexivity | apply Hget].
  - exact Hext.
  - apply (Hwf (path_join H [cp; ts]) cfg). now left.
Qed.

(** X13: for a chain of any length, a key of the merged paths maps to the
    targets given by the nearest file of the chain that has the key, the
    starting file first; a key no file has is absent. The objects parsed
    from the files have distinct keys. *)
Theorem merged_paths_nearest_wins (H : Host) (fuel : nat) (cp ts : string)
    (from : option string) (log : list log_entry) (merged : PartialConfig) :
  readConfigFile H fuel cp ts from = Some (log, Normal merged) ->
  (forall f cfg, In (f, Normal cfg) (chain H fuel cp ts) ->
                 obj_wf (own_paths cfg)) ->
  forall key,
    obj_get (cfg_paths merged) key = nearest_targets key (chain H fuel cp ts).
Proof.
  intros Hres Hwf.
  now destruct (merged_paths_along_chain H fuel cp ts from log merged Hres Hwf).
Qed.

Lemma merged_paths_nearest_wins_witness :
  obj_get [("@polkadot/api", ["packages/api/src"]);
           ("@polkadot/api/*", ["packages/api/src/*"])]
    "@polkadot/api/*"
  = nearest_targets "@polkadot/api/*"
      (chain (Installed.on Installed.project) 2 "/p" "tsconfig.json").
Proof.
  apply (merged_paths_nearest_wins (Installed.on Installed.project) 2
           "/p" "tsconfig.json" None []
           {| cfg_paths := [("@polkadot/api", ["packages/api/src"]);
                            ("@polkadot/api/*", ["packages/api/src/*"])];
              cfg_url := Some {| href := "file:///p/" |} |} eq_refl).
  intros f cfg Hin. vm_compute in Hin.
  destruct Hin as [Heq|[Heq|[Heq|[]]]]; injection Heq as _ <-; distinct_keys.
Defined.

(** X14: the merged paths list the keys of the parent first, in the order
    the parent lists them, and after them the keys only the child has, in
    the child's order; a key of both stays at the parent's place. (For keys
    that are not array indices, which [Object.entries] would move to the
    front.) *)
Theorem merged_key_order (H : Host) (configFile : string) (cfg : JsonConfig)
    (extConfig : PartialConfig) :
  obj_wf (cfg_paths extConfig) ->
  obj_wf (own_paths cfg) ->
  no_index_keys (cfg_paths extConfig) ->
  no_index_keys (own_paths cfg) ->
  keys (entries (cfg_paths (merge_parent H configFile cfg extConfig)))
  = keys (cfg_paths extConfig)
      ++ List.filter (fun k => negb (has_key (keys (cfg_paths extConfig)) k))
           (keys (own_paths cfg)).
Proof.
  intros Hwe Hwo Hne Hno. unfold merge_parent. simpl cfg_paths.
  now apply spread2_entries_keys.
Qed.

Lemma merged_key_order_witness :
  keys (entries (cfg_paths
                   (merge_parent (Sample.on Sample.two_level)
                      "/p/tsconfig.json" Sample.project_cfg
                      {| cfg_paths := own_paths Sample.base_cfg;
                         cfg_url := None |})))
  = ["@app/*"; "@lib"; "@ui"].
Proof.
  apply (merged_key_order (Sample.on Sample.two_level) "/p/tsconfig.json"
           Sample.project_cfg
           {| cfg_paths := own_paths Sample.base_cfg; cfg_url := None |}).
  - distinct_keys.
  - distinct_keys.
  - intros e Hin. simpl in Hin.
    destruct Hin as [<-|[<-|[]]]; reflexivity.
  - intros e Hin. simpl in Hin.
    destruct Hin as [<-|[<-|[]]]; reflexivity.
Defined.

(** ** Separators *)

Lemma is_sep_slashes (c : ascii) :
  JS.is_sep (if JS.is_sep c then "/"%char else c) = JS.is_sep c.
Proof. destruct (JS.is_sep c) eqn:Hc; [reflexivity | exact Hc]. Qed.

Lemma split_sep_slashes (s : string) :
  JS.split_sep (slashes s) = JS.split_sep s.
Proof.
  induction s as [|c r IH]; simpl; [reflexivity|].
  rewrite is_sep_slashes, IH.
  destruct (JS.is_sep c); reflexivity.
Qed.

Lemma is_sep_not_dot (c : ascii) :
  JS.is_sep c = true -> Ascii.eqb c "."%char = false.
Proof.
  unfold JS.is_sep. intros Hc. apply orb_true_iff in Hc.
  destruct Hc as [Hc|Hc]; apply Ascii.eqb_eq in Hc; subst c; reflexivity.
Qed.

Lemma split_sep_app (a b : string) (sep : ascii) :
  JS.is_sep sep = true ->
  JS.split_sep (a +++ String sep b) = JS.split_sep a ++ JS.split_sep b.
Proof.
  intros Hsep. induction a as [|c r IH]; simpl.
  - now rewrite Hsep.
  - rewrite IH. destruct (JS.is_sep c); [reflexivity|].
    pose proof (split_sep_nonempty r) as Hne.
    destruct (JS.split_sep r); [congruence | reflexivity].
Qed.

Lemma split_sep_single (s : string) :
  sep_free s = true -> JS.split_sep s = [s].
Proof.
  induction s as [|c r IH]; simpl; [reflexivity|].
  intros Hfree. apply andb_true_iff in Hfree. destruct Hfree as [Hc Hr].
  apply negb_true_iff in Hc. now rewrite Hc, (IH Hr).
Qed.

Lemma at_m1_snoc {A : Type} (l : list A) (x : A) : JS.at_m1 (l ++ [x]) = Some x.
Proof.
  induction l as [|y l IH]; [reflexivity|].
  simpl app. destruct (l ++ [x]) eqn:E; [|exact IH].
  destruct l; discriminate.
Qed.

(** X15: in an [extends] reference and in a key, a backslash and a slash
    are the same separator: the reference leads to the same directory and
    file name, and the key compiles to the same rule, whichever is written. *)
Theorem separators_are_interchangeable (H : Host) (u : URL)
    (cp s : string) (targets : list string) (a : Alias) :
  extPath H cp (slashes s) = extPath H cp s
  /\ extFile (slashes s) = extFile s
  /\ (alias_of_entry u (slashes s, targets) = Normal a
      <-> alias_of_entry u (s, targets) = Normal a).
Proof.
  assert (Hdot : JS.startsWith_dot (slashes s) = JS.startsWith_dot s).
  { destruct s as [|c r]; simpl; [reflexivity|].
    destruct (JS.is_sep c) eqn:Hc; [|reflexivity].
    now rewrite (is_sep_not_dot c Hc). }
  assert (Htruthy : JS.truthy (slashes s) = JS.truthy s)
    by (destruct s; reflexivity).
  unfold extPath, extRoot, extFile, extSubs.
  rewrite split_sep_slashes, Hdot. split; [reflexivity|].
  split; [reflexivity|].
  rewrite !alias_of_entry_eq. unfold rejects.
  rewrite split_sep_slashes, Htruthy.
  destruct (_ && _); [|reflexivity].
  split; discriminate.
Qed.

(** X16: a reference made of a directory part, a separator and a file name
    leads to the segments of the directory part, joined to the root, and to
    that file name; the default ['tsconfig.json'] is never used for a
    parent, so a reference that ends in a separator names the directory
    itself. *)
Theorem extends_reference_splits (H : Host) (cp dir file : string)
    (sep : ascii) :
  JS.is_sep sep = true ->
  sep_free file = true ->
  extFile (dir +++ String sep file) = file
  /\ extPath H cp (dir +++ String sep file)
     = path_join H (extRoot H cp dir :: JS.split_sep dir).
Proof.
  intros Hsep Hfree. unfold extFile, extPath, extSubs, JS.slice_0_m1.
  rewrite (split_sep_app dir file sep Hsep), (split_sep_single file Hfree).
  rewrite at_m1_snoc, removelast_last. split; [reflexivity|].
  do 2 f_equal. unfold extRoot.
  destruct dir as [|c r]; simpl; [|reflexivity].
  now rewrite (is_sep_not_dot sep Hsep).
Qed.

Lemma extends_reference_splits_witness :
  extFile "@tsconfig/strictest/" = ""
  /\ extPath (Installed.on Installed.project) "/p" "@tsconfig/strictest/"
     = "/p/node_modules/@tsconfig/strictest".
Proof.
  exact (extends_reference_splits (Installed.on Installed.project) "/p"
           "@tsconfig/strictest" "" "/"%char eq_refl eq_refl).
Defined.

(** X17: a key made of a prefix without marker, a separator and [*]
    compiles to the wildcard rule whose filter is the segment list of the
    prefix. *)
Theorem wildcard_key_compiles (u : URL) (prefix : string) (sep : ascii)
    (targets : list string) :
  JS.is_sep sep = true ->
  ~ In "*" (JS.split_sep prefix) ->
  alias_of_entry u (prefix +++ String sep "*", targets)
  = Normal {| filter := JS.split_sep prefix; isWildcard := true;
              path := hd_error targets; url := u |}.
Proof.
  intros Hsep Hno.
  assert (Hsplit : JS.split_sep (prefix +++ String sep "*")
                   = JS.split_sep prefix ++ ["*"])
    by (rewrite (split_sep_app prefix "*" sep Hsep); reflexivity).
  assert (Hrej : rejects (prefix +++ String sep "*") = false).
  { destruct (rejects _) eqn:Hrej; [|reflexivity].
    apply rejects_iff_front in Hrej. unfold JS.slice_0_m1 in Hrej.
    rewrite Hsplit, removelast_last in Hrej. contradiction. }
  rewrite alias_of_entry_eq, Hrej. simpl.
  rewrite Hsplit, at_m1_snoc. unfold JS.slice_0_m1.
  now rewrite removelast_last.
Qed.

Lemma wildcard_key_compiles_witness :
  alias_of_entry {| href := "file:///p/" |}
    ("@polkadot\api\*", ["packages/api/src/*"])
  = Normal {| filter := ["@polkadot"; "api"]; isWildcard := true;
              path := Some "packages/api/src/*";
              url := {| href := "file:///p/" |} |}.
Proof.
  apply (wildcard_key_compiles {| href := "file:///p/" |} "@polkadot\api"
           "\"%char ["packages/api/src/*"] eq_refl).
  simpl. intuition discriminate.
Defined.

(** ** A configuration that only extends *)

(** X18: a file that sets no paths and no non-empty [baseUrl], as
    [packages/dev/config/tsconfig.json] does, passes on what its parent
    gives: the same url, the same targets for every key and the same
    console output. *)
Theorem config_without_paths_inherits (H : Host) (fuel : nat) (cp ts : string)
    (from : option string) (cfg : JsonConfig) (parent : string)
    (log : list log_entry) (extConfig : PartialConfig) :
  existsSync H (path_join H [cp; ts]) = true ->
  load H (path_join H [cp; ts]) = Normal cfg ->
  parentConfig cfg = Some parent ->
  own_paths cfg = [] ->
  own_baseUrl cfg = None ->
  readConfigFile H fuel (extPath H cp parent) (extFile parent)
    (Some (path_join H [cp; ts])) = Some (log, Normal extConfig) ->
  obj_wf (cfg_paths extConfig) ->
  exists merged,
    readConfigFile H (S fuel) cp ts from = Some (log, Normal merged)
    /\ cfg_url merged = cfg_url extConfig
    /\ forall key,
         obj_get (cfg_paths merged) key = obj_get (cfg_paths extConfig) key.
Proof.
  intros He Hl Hp Hpaths Hbase Hrec Hwf.
  rewrite (readConfigFile_extends H fuel cp ts from cfg parent He Hl Hp), Hrec.
  eexists. split; [reflexivity|].
  unfold merge_parent, own_url. rewrite Hpaths, Hbase. simpl.
  split; [now destruct (cfg_url extConfig)|].
  intros key. rewrite spread2_get; [reflexivity | exact Hwf | constructor].
Qed.

Lemma config_without_paths_inherits_witness :
  exists merged,
    readConfigFile (Installed.on Installed.project) 1
      "/p/node_modules/@polkadot/dev/config" "tsconfig.json"
      (Some "/p/tsconfig.json")
    = Some ([], Normal merged)
    /\ cfg_url merged = None
    /\ forall key, obj_get (cfg_paths merged) key = None.
Proof.
  exact (config_without_paths_inherits (Installed.on Installed.project) 0
           "/p/node_modules/@polkadot/dev/config" "tsconfig.json"
           (Some "/p/tsconfig.json") Installed.dev_config
           "@tsconfig/strictest/tsconfig.json" []
           {| cfg_paths := []; cfg_url := None |}
           eq_refl eq_refl eq_refl eq_refl eq_refl eq_refl (NoDup_nil _)).
Defined.

(** * The compilation, key by key *)

Lemma map_completion_all_normal {A B} (f : A -> completion B) (l : list A) :
  (forall x, In x l -> exists y, f x = Normal y) ->
  exists ys, map_completion f l = Normal ys.
Proof.
  induction l as [|x l IH]; simpl; intros Hall; [eauto|].
  destruct (Hall x (or_introl eq_refl)) as [y Hy]. rewrite Hy.
  destruct IH as [ys Hys]; [intros x' Hin; apply Hall; now right|].
  rewrite Hys. eauto.
Qed.

Lemma Forall2_in_left {A B} (R : A -> B -> Prop) (l : list A) (l' : list B) :
  Forall2 R l l' -> forall x, In x l -> exists y, In y l' /\ R x y.
Proof.
  induction 1 as [|a b l l' Hab _ IH]; intros x Hin; [contradiction|].
  destruct Hin as [<-|Hin].
  - exists b. split; [now left | exact Hab].
  - destruct (IH x Hin) as [y [Hy Hxy]]. exists y. split; [now right | exact Hxy].
Qed.

(** With every key valid, [extractAliases] returns one rule per entry. *)
Lemma extractAliases_all_valid (H : Host) (fuel : nat) log merged :
  readConfigFile H fuel (CWD_PATH H) "tsconfig.json" None
  = Some (log, Normal merged) ->
  (forall key targets,
     In (key, targets) (cfg_paths merged) -> ~ invalid_key key) ->
  exists aliases,
    extractAliases H fuel = Some (log, Normal aliases)
    /\ Forall2
         (fun entry a =>
            alias_of_entry
              (match cfg_url merged with Some u => u | None => CWD_URL H end)
              entry = Normal a)
         (entries (cfg_paths merged)) aliases.
Proof.
  intros Hread Hvalid.
  rewrite (extractAliases_compiles H fuel log merged Hread).
  set (u := match cfg_url merged with Some u => u | None => CWD_URL H end).
  destruct (map_completion_all_normal (alias_of_entry u)
              (entries (cfg_paths merged))) as [aliases Hmap].
  - intros [key targets] Hin.
    assert (Hin' : In (key, targets) (cfg_paths merged))
      by (eapply Permutation_in; [apply entries_perm | exact Hin]).
    destruct (alias_refused_or_compiled u key targets)
      as [_ [[Hinv _]|[_ Hok]]]; [|exact Hok].
    exfalso. exact (Hvalid key targets Hin' Hinv).
  - exists aliases. rewrite Hmap. split; [reflexivity|].
    now apply map_completion_pointwise.
Qed.

(** C1: once the chain is resolved, [extractAliases] fails exactly when a
    key of the merged paths, split on slashes and backslashes, has more than
    one segment [*] or a segment [*] before the last one. The failure is the
    wildcard error of such a key, thrown by the callback for it; a key that
    is not such a key compiles to a rule, and when no key is such a key
    [extractAliases] returns the rules, one per entry. *)
Theorem extractAliases_fails_iff_invalid_key (H : Host) (fuel : nat)
    (log : list log_entry) (merged : PartialConfig) :
  readConfigFile H fuel (CWD_PATH H) "tsconfig.json" None
  = Some (log, Normal merged) ->
  ((exists e, extractAliases H fuel = Some (log, Throw e))
   <-> exists key targets,
         In (key, targets) (cfg_paths merged) /\ invalid_key key)
  /\ (forall e,
        extractAliases H fuel = Some (log, Throw e) ->
        exists key targets,
          In (key, targets) (cfg_paths merged)
          /\ invalid_key key
          /\ e = {| message := wildcard_message key (hd_error targets) |})
  /\ (forall key targets,
        In (key, targets) (cfg_paths merged) ->
        (invalid_key key
         /\ alias_of_entry
              (match cfg_url merged with Some u => u | None => CWD_URL H end)
              (key, targets)
            = Throw {| message := wildcard_message key (hd_error targets) |}
         /\ exists e, extractAliases H fuel = Some (log, Throw e))
        \/ (~ invalid_key key
            /\ exists a,
                 alias_of_entry
                   (match cfg_url merged with
                    | Some u => u
                    | None => CWD_URL H
                    end)
                   (key, targets)
                 = Normal a))
  /\ ((forall key targets,
         In (key, targets) (cfg_paths merged) -> ~ invalid_key key) ->
      exists aliases,
        extractAliases H fuel = Some (log, Normal aliases)
        /\ Forall2
             (fun entry a =>
                alias_of_entry
                  (match cfg_url merged with
                   | Some u => u
                   | None => CWD_URL H
                   end)
                  entry
                = Normal a)
             (entries (cfg_paths merged)) aliases).
Proof.
  intros Hread.
  pose proof (extractAliases_refuses_iff H fuel log merged Hread) as Hiff.
  split; [exact Hiff|]. split; [|split].
  - intros e Hthrow.
    rewrite (extractAliases_compiles H fuel log merged Hread) in Hthrow.
    injection Hthrow as Hmap.
    destruct (map_completion_first_throw _ _ _ Hmap)
      as [before [[key targets] [after [Hsplit [_ Hcb]]]]].
    exists key, targets. split; [|split].
    + eapply Permutation_in; [apply entries_perm|].
      rewrite Hsplit. apply in_or_app. right. now left.
    + apply (alias_throws_iff_invalid
               (match cfg_url merged with Some u => u | None => CWD_URL H end)
               key targets).
      eauto.
    + rewrite alias_of_entry_eq in Hcb.
      destruct (rejects key); [|discriminate]. now injection Hcb as <-.
  - intros key targets Hin.
    destruct (alias_refused_or_compiled
                (match cfg_url merged with Some u => u | None => CWD_URL H end)
                key targets) as [_ [[Hinv Hcb]|[Hok Hrule]]].
    + left. split; [exact Hinv|]. split; [exact Hcb|].
      apply Hiff. eauto.
    + right. now split.
  - now apply extractAliases_all_valid.
Qed.

Lemma extractAliases_fails_iff_invalid_key_witness :
  exists e,
    extractAliases (Installed.on Installed.bad_keys) 0 = Some ([], Throw e)
    /\ e = {| message := wildcard_message "@a/*/*" (Some "./src/*") |}.
Proof.
  destruct (extractAliases_fails_iff_invalid_key
              (Installed.on Installed.bad_keys) 0 [] _ eq_refl)
    as [Hiff [Hwhich _]].
  destruct (proj2 Hiff) as [e He].
  - exists "*/x", []. split.
    + simpl. auto.
    + apply rejects_iff_invalid. reflexivity.
  - exists e. split; [exact He|].
    destruct (Hwhich e He) as [key [targets [_ [_ Hmsg]]]].
    rewrite He in *. vm_compute in He. now injection He as <-.
Defined.

(** C7: an entry with several candidate targets compiles as if the first
    candidate stood alone. When its key is valid the callback gives the rule
    of the key with the first candidate as [path], and [extractAliases],
    when no key of the merged paths is invalid, returns that rule; when its
    key is invalid the error names the first candidate only. *)
Theorem only_first_candidate_used (u : URL) (key t t' : string)
    (rest : list string) :
  alias_of_entry u (key, t :: t' :: rest) = alias_of_entry u (key, [t])
  /\ ((~ invalid_key key
       /\ alias_of_entry u (key, t :: t' :: rest)
          = Normal {| filter := if JS.is_star (JS.at_m1 (JS.split_sep key))
                                then JS.slice_0_m1 (JS.split_sep key)
                                else JS.split_sep key;
                      isWildcard := JS.is_star (JS.at_m1 (JS.split_sep key));
                      path := Some t;
                      url := u |})
      \/ (invalid_key key
          /\ alias_of_entry u (key, t :: t' :: rest)
             = Throw {| message := wildcard_message key (Some t) |}))
  /\ forall (H : Host) (fuel : nat) (log : list log_entry)
            (merged : PartialConfig),
       readConfigFile H fuel (CWD_PATH H) "tsconfig.json" None
       = Some (log, Normal merged) ->
       In (key, t :: t' :: rest) (cfg_paths merged) ->
       (forall k ts, In (k, ts) (cfg_paths merged) -> ~ invalid_key k) ->
       exists aliases a,
         extractAliases H fuel = Some (log, Normal aliases)
         /\ In a aliases
         /\ key_segments a = JS.split_sep key
         /\ path a = Some t.
Proof.
  split; [reflexivity|]. split.
  - rewrite alias_of_entry_eq. destruct (rejects key) eqn:Hrej.
    + right. split; [now apply rejects_iff_invalid | reflexivity].
    + left. split; [|reflexivity].
      intros Hinv. apply rejects_iff_invalid in Hinv. congruence.
  - intros H fuel log merged Hread Hin Hvalid.
    destruct (extractAliases_all_valid H fuel log merged Hread Hvalid)
      as [aliases [Hres Hall]].
    assert (Hin' : In (key, t :: t' :: rest) (entries (cfg_paths merged)))
      by (eapply Permutation_in; [apply Permutation_sym, entries_perm | exact Hin]).
    destruct (Forall2_in_left _ _ _ Hall _ Hin') as [a [Ha Hrule]].
    exists aliases, a. split; [exact Hres|]. split; [exact Ha|].
    split; [exact (alias_key_segments _ _ _ _ Hrule)|].
    rewrite alias_of_entry_eq in Hrule.
    destruct (rejects key); [discriminate|]. now injection Hrule as <-.
Qed.

Lemma only_first_candidate_used_witness :
  alias_of_entry {| href := "file:///p/" |} ("@app/*", ["./src/*"; "./gen/*"])
  = Normal {| filter := ["@app"]; isWildcard := true; path := Some "./src/*";
              url := {| href := "file:///p/" |} |}
  /\ exists aliases a,
       extractAliases (Sample.on Sample.two_level) 1 = Some ([], Normal aliases)
       /\ In a aliases
       /\ key_segments a = ["@app"; "*"]
       /\ path a = Some "./src/*".
Proof.
  destruct (only_first_candidate_used {| href := "file:///p/" |}
              "@app/*" "./src/*" "./gen/*" []) as [_ [Hrule Hcompiled]].
  split.
  - destruct Hrule as [[_ Hok]|[Hinv _]]; [exact Hok|].
    apply rejects_iff_invalid in Hinv. discriminate Hinv.
  - apply (Hcompiled (Sample.on Sample.two_level) 1 []
             {| cfg_paths := [("@app/*", ["./src/*"; "./gen/*"]);
                              ("@lib", ["./index.ts"]);
                              ("@ui", ["./ui/index.ts"])];
                cfg_url := Some {| href := "file:///p/base/lib/" |} |}
             eq_refl).
    + left. reflexivity.
    + intros k ts Hin Hinv. apply rejects_iff_invalid in Hinv.
      destruct Hin as [[= <- _]|[[= <- _]|[[= <- _]|[]]]]; discriminate Hinv.
Defined.

(** Every call of [extractAliases] returns. *)
Lemma extractAliases_returns (H : Host) (fuel : nat) :
  exists log c, extractAliases H fuel = Some (log, c).
Proof.
  destruct (readConfigFile_returns H fuel (CWD_PATH H) "tsconfig.json" None)
    as [log [[merged|e] Hread]].
  - rewrite (extractAliases_compiles H fuel log merged Hread). eauto.
  - rewrite (extractAliases_rethrows H fuel log e Hread). eauto.
Qed.
